(** * SlimSearch: inverted index, term postings, search and serialisation

    A shallow embedding of the parts of the search engine that live in
    [SearchIndex.ts] (the index state, its constructor, [dirtFactor] and
    [toJSON]), [term.ts] ([addTerm], [removeTerm]) and [search.ts]
    ([search]), together with the properties the specification states
    about them.

    Conventions of the embedding:
    - a JavaScript [Map<number, V>] is a [gmap N V]: the model keeps what
      a [Map] holds, not the order in which it lists its entries; field
      ids and short document ids are natural numbers, term frequencies
      and counters are integers ([Z]), scores and averages are rationals
      ([Q]);
    - the numbers of the code are doubles. Adding or subtracting one is
      exact on the safe integers, up to [2^53] in magnitude, and a theorem
      whose conclusion depends on that arithmetic has the bound as a
      hypothesis; the quotient of [dirtFactor] is rounded as a double
      division rounds it;
    - a JavaScript object used as a dictionary ([Record<string, V>]) is a
      [gmap string V]; numeric keys are turned into their decimal string,
      as property access does;
    - a [Map] whose iteration order is observed (the combined results of a
      query) is an association list in insertion order;
    - code that can throw returns a [Completion]; calls made to the host
      logger are collected in a list of [LogCall]s. *)

From Stdlib Require Import ZArith QArith String Ascii List Lia Permutation.
From Stdlib Require Import Qround Qabs Qpower Lqa.
From Stdlib Require Import DecimalString DecimalN.
From stdpp Require Import gmap strings list fin_maps sorting.

Set Default Proof Using "Type".

Local Open Scope string_scope.
Local Open Scope list_scope.
Local Open Scope Z_scope.

(** ** Completions and logging *)

Inductive Exception :=
  | Error (message : string)
  | TypeError.

Inductive Completion (A : Type) :=
  | Return (a : A)
  | Throw (e : Exception).

Arguments Return {A} a.
Arguments Throw {A} e.

Inductive LogLevel := LogDebug | LogInfo | LogWarn | LogError.

(** What a warning is about. The message text itself is assembled by
    [warning.ts]; the embedding keeps the data the message is built from. *)
Inductive LogMessage :=
  | DocumentChanged (documentId fieldId : N) (term : string)
  | PlainMessage (text : string).

Record LogCall := {
  level : LogLevel;
  message : LogMessage;
  code : option string;
}.

(** ** Numbers

    A number of the code is an IEEE 754 double: a sign, a significand of
    53 bits and a power of two. The result of an operation is the exact
    result rounded to the nearest double, to the one with the even
    significand when two are equally near. *)

(** [Number.MAX_SAFE_INTEGER] *)
Definition MAX_SAFE_INTEGER : Z := 2 ^ 53 - 1.

(** [Number.isSafeInteger] on an integer. On a safe integer [n + 1] and
    [n - 1] are computed exactly. *)
Definition isSafeInteger (n : Z) : Prop :=
  - MAX_SAFE_INTEGER ≤ n ≤ MAX_SAFE_INTEGER.

(** The power of two at or below a positive number: [⌊log2 q⌋]. *)
Definition binade (q : Q) : Z :=
  let k := Z.log2 (Qnum q) - Z.log2 (Z.pos (Qden q)) in
  if Qle_bool (2 ^ k) q then k else k - 1.

(** The nearest integer, the even one of two that are equally near. *)
Definition roundHalfEven (x : Q) : Z :=
  let n := Qfloor x in
  match (x - inject_Z n ?= 1 # 2)%Q with
  | Lt => n
  | Gt => n + 1
  | Eq => if Z.even n then n else n + 1
  end.

(** A positive number rounded to a significand of 53 bits. *)
Definition roundPositive (q : Q) : Q :=
  let e := binade q - 52 in
  (inject_Z (roundHalfEven (q / 2 ^ e)) * 2 ^ e)%Q.

(** The double nearest to a number. The exponent is not bounded here:
    this is the rounding of a double operation whose result is zero or
    has a magnitude between [2^-1022] and [2^1024], where a double has
    all its 53 bits. *)
Definition roundDouble (q : Q) : Q :=
  match (q ?= 0)%Q with
  | Eq => 0%Q
  | Gt => roundPositive q
  | Lt => (- roundPositive (- q))%Q
  end.

(** [x + y] and [x / y] on doubles. A division by zero gives [Infinity]
    or [NaN] in the code, which [Q] does not have; the divisor of
    [dirtFactor] is at least one when its counters are not negative. *)
Definition doubleAdd (x y : Q) : Q := roundDouble (x + y).
Definition doubleDivide (x y : Q) : Q := roundDouble (x / y).

(** ** typings.ts *)

Inductive LowercaseCombinationOperator := op_or | op_and | op_and_not.

Inductive CombinationOperator :=
  | Lowercase (op : LowercaseCombinationOperator)
  | Uppercase (op : LowercaseCombinationOperator)
  | Capitalize (op : LowercaseCombinationOperator).

Abbreviation SerializedIndexEntry := (gmap string Z).

Record BM25Params := {
  k : Q;
  b : Q;
  d : Q;
}.

(** [MatchInfo] is a JavaScript object read in property order. *)
Abbreviation MatchInfo := (list (string * list string)).

Inductive ProcessedTerm :=
  | TermString (s : string)
  | TermArray (l : list string)
  | TermFalsy.

Record Weights := {
  weights_fuzzy : option Q;
  weights_prefix : option Q;
}.

Record VacuumConditions := {
  minDirtCount : option Z;
  minDirtFactor : option Q;
}.

Record AutoVacuumOptions := {
  batchSize : option Z;
  batchWait : option Z;
  conditions : VacuumConditions;
}.

Inductive AutoVacuumSetting :=
  | AutoVacuumBool (enabled : bool)
  | AutoVacuumCustom (o : AutoVacuumOptions).

(** [DocumentTermFrequencies]: short id to term frequency. *)
Abbreviation DocumentTermFrequencies := (gmap N Z).

(** [FieldTermData]: field id to the frequencies of a term in that field. *)
Abbreviation FieldTermData := (gmap N (gmap N Z)).

(** ** SearchableMap *)

Module SearchableMap.
(** The class [SearchableMap] (the radix tree of section 4.1 of the
    specification) is not among the sources. The shape of the tree is not
    observable through the operations the index uses, so the dictionary is
    the finite map of its keys. *)
Section Operations.
Context {V : Type}.

(** Modelled from the spec: [has(key)] of [SearchableMap], which is not
    among the sources; whether the key is in the map. *)
Definition has (key : string) (m : gmap string V) : bool :=
  bool_decide (is_Some (m !! key)).

(** Modelled from the spec: [get(key)] of [SearchableMap], which is not
    among the sources; the value of the key, if there is one. *)
Definition get (key : string) (m : gmap string V) : option V := m !! key.

(** Modelled from the spec: [set(key, value)] of [SearchableMap], which is
    not among the sources; the standard update. *)
Definition set (key : string) (value : V) (m : gmap string V) : gmap string V :=
  <[key := value]> m.

(** Modelled from the spec: [delete(key)] of [SearchableMap], which is not
    among the sources; the standard removal, without effect on a key that
    is not there. *)
Definition delete (key : string) (m : gmap string V) : gmap string V :=
  base.delete key m.

(** Modelled from the spec: [fetch(key, factory)] of [SearchableMap],
    which is not among the sources; it returns the existing value or
    installs and returns [factory()]. *)
Definition fetch (key : string) (factory : unit -> V) (m : gmap string V)
  : V * gmap string V :=
  match m !! key with
  | Some value => (value, m)
  | None => let value := factory tt in (value, <[key := value]> m)
  end.

(** Modelled from the spec: the iteration of [SearchableMap], which is not
    among the sources; it yields each stored key exactly once, with its
    value. The order of the keys is not fixed here. *)
Definition entries (m : gmap string V) : list (string * V) := map_to_list m.

(** Modelled from the spec: [size] of [SearchableMap], which is not among
    the sources; the number of keys. *)
Definition size (m : gmap string V) : nat := base.size m.
End Operations.
End SearchableMap.

(** Sample vacuum settings. *)
Definition sampleConditions : VacuumConditions :=
  {| minDirtCount := Some 20; minDirtFactor := Some (1 # 10)%Q |}.

Definition sampleAutoVacuum : AutoVacuumOptions :=
  {| batchSize := Some 1000; batchWait := Some 10;
     conditions := sampleConditions |}.

Section Engine.
(** [ID] is the type of external document ids, [Value] the type of the
    values of stored fields, [Document] the type of indexed documents and
    [Logger] the type of the host's logging callback. *)
Context {ID : Type} {ID_eq : EqDecision ID} {ID_countable : Countable ID}.
Context {Value Document Logger : Type}.

(** The stored fields of a document (the type parameter [Index] of the
    source). A stored field may carry one of the names [search] uses for
    its own result properties; by the type [SearchResult = Index & {...}]
    such a field has the type of that property. *)
Record StoredFields := {
  stored_id : option ID;
  stored_score : option Q;
  stored_terms : option (list string);
  stored_match : option MatchInfo;
  stored_other : gmap string Value;
}.

(** The object [search] builds for each hit. [r_id] is [None] when the
    short id has no external id ([Map.get] gave [undefined]). *)
Record SearchResult := {
  r_id : option ID;
  r_score : Q;
  r_terms : list string;
  r_match : MatchInfo;
  r_other : gmap string Value;
}.

Inductive PrefixOption :=
  | PrefixBool (v : bool)
  | PrefixFun (f : string -> nat -> list string -> bool).

Inductive FuzzyOption :=
  | FuzzyBool (v : bool)
  | FuzzyNumber (v : Q)
  | FuzzyFun (f : string -> nat -> list string -> bool + Q).

(** [SearchOptions]: every property is optional. *)
Record SearchOptions := {
  opt_fields : option (list string);
  opt_filter : option (SearchResult -> bool);
  opt_boost : option (gmap string Q);
  opt_boostTerm : option (string -> nat -> list string -> Q);
  opt_weights : option Weights;
  opt_boostDocument : option (ID -> string -> option StoredFields -> Q);
  opt_prefix : option PrefixOption;
  opt_fuzzy : option FuzzyOption;
  opt_maxFuzzy : option Q;
  opt_combineWith : option CombinationOperator;
  opt_tokenize : option (string -> list string);
  opt_processTerm : option (string -> ProcessedTerm);
  opt_bm25 : option BM25Params;
}.

(** [{}] *)
Definition emptySearchOptions : SearchOptions :=
  {| opt_fields := None; opt_filter := None; opt_boost := None;
     opt_boostTerm := None; opt_weights := None; opt_boostDocument := None;
     opt_prefix := None; opt_fuzzy := None; opt_maxFuzzy := None;
     opt_combineWith := None; opt_tokenize := None; opt_processTerm := None;
     opt_bm25 := None |}.

(** A property set on the right operand of a spread wins. *)
Definition spread {A : Type} (left right : option A) : option A :=
  match right with
  | Some v => Some v
  | None => left
  end.

(** [{ ...left, ...right }] on two [SearchOptions]. *)
Definition spreadSearchOptions (left right : SearchOptions) : SearchOptions :=
  {| opt_fields := spread (opt_fields left) (opt_fields right);
     opt_filter := spread (opt_filter left) (opt_filter right);
     opt_boost := spread (opt_boost left) (opt_boost right);
     opt_boostTerm := spread (opt_boostTerm left) (opt_boostTerm right);
     opt_weights := spread (opt_weights left) (opt_weights right);
     opt_boostDocument :=
       spread (opt_boostDocument left) (opt_boostDocument right);
     opt_prefix := spread (opt_prefix left) (opt_prefix right);
     opt_fuzzy := spread (opt_fuzzy left) (opt_fuzzy right);
     opt_maxFuzzy := spread (opt_maxFuzzy left) (opt_maxFuzzy right);
     opt_combineWith := spread (opt_combineWith left) (opt_combineWith right);
     opt_tokenize := spread (opt_tokenize left) (opt_tokenize right);
     opt_processTerm := spread (opt_processTerm left) (opt_processTerm right);
     opt_bm25 := spread (opt_bm25 left) (opt_bm25 right) |}.

(** [SearchIndexOptions], the argument of the constructor. [fields] is
    required by the type, but the constructor checks it at run time, so
    it is optional here. *)
Record SearchIndexOptions := {
  cfg_fields : option (list string);
  cfg_idField : option string;
  cfg_storeFields : option (list string);
  cfg_extractField : option (Document -> string -> string);
  cfg_tokenize : option (string -> option string -> list string);
  cfg_processTerm : option (string -> option string -> ProcessedTerm);
  cfg_logger : option Logger;
  cfg_autoVacuum : option AutoVacuumSetting;
  cfg_searchOptions : option SearchOptions;
  cfg_autoSuggestOptions : option SearchOptions;
}.

(** [Query]: a string, the wildcard, or a combination of queries that
    carries search options of its own. *)
#[warnings="-register-all"]
Inductive Query :=
  | QueryString (s : string)
  | QueryWildcard
  | QueryCombination (options : SearchOptions) (queries : list Query).

(** [IndexObject], the serialised form. *)
Record IndexObject := {
  documentCount : Z;
  nextId : Z;
  documentIds : gmap string ID;
  fieldIds : gmap string N;
  fieldLength : gmap string (list Z);
  averageFieldLength : list Q;
  storedFields : gmap string StoredFields;
  dirtCount : option Z;
  index : list (string * gmap string SerializedIndexEntry);
  version : Z;
}.


(** ** SearchIndex.ts: the state of an index *)

(** [OptionsWithDefaults]: the options after the defaults were filled in. *)
Record OptionsWithDefaults := {
  fields : list string;
  storeFields : list string;
  idField : string;
  extractField : Document -> string -> string;
  tokenize : string -> option string -> list string;
  processTerm : string -> option string -> ProcessedTerm;
  logger : Logger;
  autoVacuum : option AutoVacuumOptions;
  searchOptions : SearchOptions;
  autoSuggestOptions : SearchOptions;
}.

(** The members of the class. A pending vacuum is a promise of no value. *)
Record SearchIndex := {
  _options : OptionsWithDefaults;
  _index : gmap string FieldTermData;
  _documentCount : Z;
  _documentIds : gmap N ID;
  _idToShortId : gmap ID N;
  _fieldIds : gmap string N;
  _fieldLength : gmap N (list Z);
  _avgFieldLength : list Q;
  _nextId : Z;
  _storedFields : gmap N StoredFields;
  _dirtCount : Z;
  _currentVacuum : option unit;
  _enqueuedVacuum : option unit;
  _enqueuedVacuumConditions : option VacuumConditions;
}.

(** Assignment to [this._index]; the other members are kept. *)
Definition with_index (s : SearchIndex) (dict : gmap string FieldTermData)
  : SearchIndex :=
  {| _options := _options s;
     _index := dict;
     _documentCount := _documentCount s;
     _documentIds := _documentIds s;
     _idToShortId := _idToShortId s;
     _fieldIds := _fieldIds s;
     _fieldLength := _fieldLength s;
     _avgFieldLength := _avgFieldLength s;
     _nextId := _nextId s;
     _storedFields := _storedFields s;
     _dirtCount := _dirtCount s;
     _currentVacuum := _currentVacuum s;
     _enqueuedVacuum := _enqueuedVacuum s;
     _enqueuedVacuumConditions := _enqueuedVacuumConditions s |}.

(** ** term.ts *)

(** Modelled from the spec: [createMap] of [utils.ts] is not among the
    sources; it is the factory handed to [fetch], which installs the
    posting chain of a new term lazily: a [Map] without entries. *)
Definition createMap (_ : unit) : FieldTermData := ∅.

(** Modelled from the spec: [warnDocumentChanged] of [warning.ts] is not
    among the sources. Sections 4.2 and 7 say that it signals
    [DocumentChanged] through the logger, as a warning with the code
    [version_conflict], and that it does not fail. The calls it makes to
    the logger are returned. *)
Definition warnDocumentChanged (searchIndex : SearchIndex)
  (documentId fieldId : N) (term : string) : list LogCall :=
  [ {| level := LogWarn;
       message := DocumentChanged documentId fieldId term;
       code := Some "version_conflict" |} ].

(** [a || 0] on an optional number: [undefined] and [0] both give [0]. *)
Definition or_zero (a : option Z) : Z :=
  match a with
  | Some n => if n =? 0 then 0 else n
  | None => 0
  end.

(** [a ?? 0] on an optional number. *)
Definition nullish_zero (a : option Z) : Z :=
  match a with
  | Some n => n
  | None => 0
  end.

(** [addTerm] of [src/term.ts]. The [Map]s are mutated in place; the
    dictionary owns them, so the new contents are written back under
    [term]. [(docs || 0) + 1] is the integer sum here, which is what the
    code computes while [docs] is a safe integer. *)
Definition addTerm (index : SearchIndex) (fieldId documentId : N)
  (term : string) : SearchIndex :=
  let '(indexData, dict) :=
    SearchableMap.fetch term createMap (_index index) in
  match indexData !! fieldId with
  | None =>
      let fieldIndex : DocumentTermFrequencies := <[documentId := 1]> ∅ in
      with_index index
        (SearchableMap.set term (<[fieldId := fieldIndex]> indexData) dict)
  | Some fieldIndex =>
      let docs := fieldIndex !! documentId in
      let fieldIndex := <[documentId := or_zero docs + 1]> fieldIndex in
      with_index index
        (SearchableMap.set term (<[fieldId := fieldIndex]> indexData) dict)
  end.

(** The last statement of [removeTerm]: the term is dropped when its field
    map has no entry left. [get(term)!.size] on a missing term is a
    [TypeError]. *)
Definition dropEmptyTerm (index : SearchIndex) (term : string)
  (dict : gmap string FieldTermData) (logged : list LogCall)
  : Completion (SearchIndex * list LogCall) :=
  match SearchableMap.get term dict with
  | Some data =>
      if (size data =? 0)%nat
      then Return (with_index index (SearchableMap.delete term dict), logged)
      else Return (with_index index dict, logged)
  | None => Throw TypeError
  end.

(** [removeTerm] of [src/term.ts]. The result carries the new state and the
    calls made to the logger. *)
Definition removeTerm (index : SearchIndex) (fieldId documentId : N)
  (term : string) : Completion (SearchIndex * list LogCall) :=
  if negb (SearchableMap.has term (_index index)) then
    Return (index, warnDocumentChanged index documentId fieldId term)
  else
    let '(indexData, dict) :=
      SearchableMap.fetch term createMap (_index index) in
    let fieldIndex := indexData !! fieldId in
    let '(indexData, logged) :=
      match fieldIndex with
      | None => (indexData, warnDocumentChanged index documentId fieldId term)
      | Some fieldIndex =>
          match fieldIndex !! documentId with
          | None =>
              (indexData, warnDocumentChanged index documentId fieldId term)
          | Some amount =>
              if amount <=? 1 then
                if (size fieldIndex <=? 1)%nat
                then (base.delete fieldId indexData, [])
                else (<[fieldId := base.delete documentId fieldIndex]> indexData, [])
              else
                (<[fieldId := <[documentId := amount - 1]> fieldIndex]> indexData, [])
          end
      end in
    dropEmptyTerm index term (SearchableMap.set term indexData dict) logged.

(** [addTerm] as it stands in the second copy of the module (among the
    unnamed sources), which reads [docs ?? 0]. *)
Definition addTerm' (searchIndex : SearchIndex) (fieldId documentId : N)
  (term : string) : SearchIndex :=
  let '(indexData, dict) :=
    SearchableMap.fetch term createMap (_index searchIndex) in
  match indexData !! fieldId with
  | None =>
      let fieldIndex : DocumentTermFrequencies := <[documentId := 1]> ∅ in
      with_index searchIndex
        (SearchableMap.set term (<[fieldId := fieldIndex]> indexData) dict)
  | Some fieldIndex =>
      let docs := fieldIndex !! documentId in
      let fieldIndex := <[documentId := nullish_zero docs + 1]> fieldIndex in
      with_index searchIndex
        (SearchableMap.set term (<[fieldId := fieldIndex]> indexData) dict)
  end.

(** [removeTerm] of the second copy: [amount] is read once, through
    [fieldIndex?.get(documentId)]. *)
Definition removeTerm' (searchIndex : SearchIndex) (fieldId documentId : N)
  (term : string) : Completion (SearchIndex * list LogCall) :=
  if negb (SearchableMap.has term (_index searchIndex)) then
    Return (searchIndex,
            warnDocumentChanged searchIndex documentId fieldId term)
  else
    let '(indexData, dict) :=
      SearchableMap.fetch term createMap (_index searchIndex) in
    let fieldIndex := indexData !! fieldId in
    let amount := fieldIndex ≫= (λ m : DocumentTermFrequencies, m !! documentId) in
    let '(indexData, logged) :=
      match fieldIndex, amount with
      | Some fieldIndex, Some amount =>
          if amount <=? 1 then
            if (size fieldIndex <=? 1)%nat
            then (base.delete fieldId indexData, [])
            else (<[fieldId := base.delete documentId fieldIndex]> indexData, [])
          else
            (<[fieldId := <[documentId := amount - 1]> fieldIndex]> indexData, [])
      | _, _ =>
          (indexData,
           warnDocumentChanged searchIndex documentId fieldId term)
      end in
    dropEmptyTerm searchIndex term (SearchableMap.set term indexData dict)
      logged.

(** ** SearchIndex.ts: constructor, getters and toJSON *)

(** The constants of [defaults.ts], which is not among the sources. *)
Variable defaultOptions : OptionsWithDefaults.
Variable defaultSearchOptions : SearchOptions.
Variable defaultAutoSuggestOptions : SearchOptions.
Variable defaultAutoVacuumOptions : AutoVacuumOptions.
Variable defaultVacuumConditions : VacuumConditions.

(** The double quote, which a string literal cannot hold as such. *)
Definition quote : string := String "034"%char EmptyString.

(** The message of the only error the constructor throws. *)
Definition fieldsMissing : string :=
  "SlimSearch: option " ++ quote ++ "fields" ++ quote ++ " must be provided".

(** [object[name] = v] on a plain object ([{}]) and a number [v]. The
    name [__proto__] is the accessor that [Object.prototype] hands down,
    and its setter ignores a number: nothing is stored under that name. *)
Definition setProperty (name : string) (v : N) (object : gmap string N)
  : gmap string N :=
  if decide (name = "__proto__") then object else <[name := v]> object.

(** [addFields]: [this._fieldIds[fields[i]] = i], for [i] from [0]. *)
Fixpoint addFieldsFrom (i : N) (fields : list string) (ids : gmap string N)
  : gmap string N :=
  match fields with
  | [] => ids
  | name :: fields => addFieldsFrom (i + 1) fields (setProperty name i ids)
  end.

Definition addFields (fields : list string) (ids : gmap string N)
  : gmap string N :=
  addFieldsFrom 0 fields ids.

(** The constructor. Its argument may be [undefined] ([options?.fields]).
    A property of [options] takes the place of the default of the same
    name; [autoVacuum], [searchOptions] and [autoSuggestOptions] are
    computed. *)
Definition constructor (options : option SearchIndexOptions)
  : Completion SearchIndex :=
  match options ≫= cfg_fields with
  | None => Throw (Error fieldsMissing)
  | Some fieldNames =>
      let options := default
        {| cfg_fields := None; cfg_idField := None; cfg_storeFields := None;
           cfg_extractField := None; cfg_tokenize := None;
           cfg_processTerm := None; cfg_logger := None;
           cfg_autoVacuum := None; cfg_searchOptions := None;
           cfg_autoSuggestOptions := None |} options in
      let autoVacuum :=
        match cfg_autoVacuum options with
        | None | Some (AutoVacuumBool true) => Some defaultAutoVacuumOptions
        | Some (AutoVacuumBool false) => None
        | Some (AutoVacuumCustom custom) => Some custom
        end in
      let _options :=
        {| fields := fieldNames;
           storeFields :=
             default (storeFields defaultOptions) (cfg_storeFields options);
           idField := default (idField defaultOptions) (cfg_idField options);
           extractField :=
             default (extractField defaultOptions) (cfg_extractField options);
           tokenize := default (tokenize defaultOptions) (cfg_tokenize options);
           processTerm :=
             default (processTerm defaultOptions) (cfg_processTerm options);
           logger := default (logger defaultOptions) (cfg_logger options);
           autoVacuum := autoVacuum;
           searchOptions :=
             spreadSearchOptions defaultSearchOptions
               (default emptySearchOptions (cfg_searchOptions options));
           autoSuggestOptions :=
             spreadSearchOptions defaultAutoSuggestOptions
               (default emptySearchOptions (cfg_autoSuggestOptions options)) |} in
      Return
        {| _options := _options;
           _index := ∅;
           _documentCount := 0;
           _documentIds := ∅;
           _idToShortId := ∅;
           _fieldIds := addFields (fields _options) ∅;
           _fieldLength := ∅;
           _avgFieldLength := [];
           _nextId := 0;
           _storedFields := ∅;
           _dirtCount := 0;
           _currentVacuum := None;
           _enqueuedVacuum := None;
           _enqueuedVacuumConditions := Some defaultVacuumConditions |}
  end.

(** [get isVacuuming] *)
Definition isVacuuming (this : SearchIndex) : bool :=
  bool_decide (is_Some (_currentVacuum this)).

(** [get dirtFactor]:
    [this._dirtCount / (1 + this._documentCount + this._dirtCount)], the
    two sums and the quotient each rounded to a double. *)
Definition dirtFactor (this : SearchIndex) : Q :=
  doubleDivide (inject_Z (_dirtCount this))
    (doubleAdd (doubleAdd 1 (inject_Z (_documentCount this)))
       (inject_Z (_dirtCount this))).

(** [get termCount] *)
Definition termCount (this : SearchIndex) : nat :=
  SearchableMap.size (_index this).

(** The property key a number turns into: its decimal digits. *)
Definition propertyKey (n : N) : string :=
  NilZero.string_of_uint (N.to_uint n).

(** [Object.fromEntries] on a [Map] with numeric keys. *)
Definition fromEntries {V : Type} (m : gmap N V) : gmap string V :=
  kmap propertyKey m.

(** The inner loop of [toJSON]:
    [for (const [fieldId, frequencies] of fieldIndex)
       data[fieldId] = Object.fromEntries(frequencies)]. *)
Definition serializeTerm (fieldIndex : FieldTermData)
  : gmap string SerializedIndexEntry :=
  map_fold
    (λ (fieldId : N) (frequencies : DocumentTermFrequencies)
       (data : gmap string SerializedIndexEntry),
       <[propertyKey fieldId := fromEntries frequencies]> data)
    ∅ fieldIndex.

(** [toJSON] *)
Definition toJSON (this : SearchIndex) : IndexObject :=
  let index :=
    foldl
      (λ (index : list (string * gmap string SerializedIndexEntry))
         (entry : string * FieldTermData),
         index ++ [(entry.1, serializeTerm entry.2)])
      [] (SearchableMap.entries (_index this)) in
  {| documentCount := _documentCount this;
     nextId := _nextId this;
     documentIds := fromEntries (_documentIds this);
     fieldIds := _fieldIds this;
     fieldLength := fromEntries (_fieldLength this);
     averageFieldLength := _avgFieldLength this;
     storedFields := fromEntries (_storedFields this);
     dirtCount := Some (_dirtCount this);
     index := index;
     version := 2 |}.

(** ** search.ts *)

(** What [search] reads of each entry of the combined results. *)
Record QueryResult := {
  qr_score : Q;
  qr_terms : list string;
  qr_match : MatchInfo;
}.

(** [executeQuery] of [results.ts], which is not among the sources: the
    combined results, a [Map] from short id to [QueryResult], in the order
    in which it is iterated. *)
Variable executeQuery :
  SearchIndex -> Query -> SearchOptions -> list (N * QueryResult).

(** [Object.keys] of a [MatchInfo]. *)
Definition Object_keys (matchInfo : MatchInfo) : list string :=
  map fst matchInfo.

(** [Object.assign(result, stored)]: every stored field is copied over the
    property of the same name; [undefined] as a source copies nothing. *)
Definition Object_assign (result : SearchResult) (stored : option StoredFields)
  : SearchResult :=
  match stored with
  | None => result
  | Some stored =>
      {| r_id := spread (r_id result) (stored_id stored);
         r_score := default (r_score result) (stored_score stored);
         r_terms := default (r_terms result) (stored_terms stored);
         r_match := default (r_match result) (stored_match stored);
         r_other := stored_other stored ∪ r_other result |}
  end.

(** Modelled from the spec: [byScore] of [utils.ts] is not among the
    sources. Section 4.4 has the results sorted by descending score; the
    comparator is handed two result objects, which carry no short id, and
    answers with the difference of their scores. *)
Definition byScore (a b : SearchResult) : Q := (r_score b - r_score a)%Q.

(** The comparator that [byScore] is, for any way [key] to read the score
    of an element. *)
Definition descendingBy {A : Type} (key : A -> Q) (x y : A) : Q :=
  (key y - key x)%Q.

(** [Array.prototype.sort] with a comparator. The sort is stable: [x],
    which comes first in the array, stays before [y] unless the comparator
    is positive on them. *)
Fixpoint sortInsert {A : Type} (compare : A -> A -> Q) (x : A) (sorted : list A)
  : list A :=
  match sorted with
  | [] => [x]
  | y :: sorted' =>
      if Qle_bool (compare x y) 0 then x :: sorted
      else y :: sortInsert compare x sorted'
  end.

Definition sort {A : Type} (compare : A -> A -> Q) (array : list A) : list A :=
  foldr (sortInsert compare) [] array.

(** The object built for one entry of the combined results, stored fields
    included. *)
Definition resultOf (searchIndex : SearchIndex) (docId : N)
  (entry : QueryResult) : SearchResult :=
  let quality := length (qr_terms entry) in
  let result :=
    {| r_id := _documentIds searchIndex !! docId;
       r_score := (qr_score entry * inject_Z (Z.of_nat quality))%Q;
       r_terms := Object_keys (qr_match entry);
       r_match := qr_match entry;
       r_other := ∅ |} in
  Object_assign result (_storedFields searchIndex !! docId).

(** [searchOptions.filter == null || searchOptions.filter(result)] *)
Definition passes (searchOptions : SearchOptions) (result : SearchResult)
  : bool :=
  match opt_filter searchOptions with
  | None => true
  | Some filter => filter result
  end.

(** [search]. The options default to [{}]. *)
Definition search (searchIndex : SearchIndex) (query : Query)
  (searchOptions : option SearchOptions) : list SearchResult :=
  let searchOptions := default emptySearchOptions searchOptions in
  let combinedResults := executeQuery searchIndex query searchOptions in
  let results :=
    foldl
      (λ (results : list SearchResult) (entry : N * QueryResult),
         let result := resultOf searchIndex entry.1 entry.2 in
         if passes searchOptions result then results ++ [result] else results)
      [] combinedResults in
  sort byScore results.

(** The results before [sort], next to their short ids, in the order of
    the combined results. *)
Definition candidates (searchIndex : SearchIndex) (query : Query)
  (searchOptions : option SearchOptions) : list (N * SearchResult) :=
  let searchOptions := default emptySearchOptions searchOptions in
  base.filter (λ hit : N * SearchResult, passes searchOptions hit.2 = true)
    (map (λ entry : N * QueryResult,
            (entry.1, resultOf searchIndex entry.1 entry.2))
         (executeQuery searchIndex query searchOptions)).

(** The candidates sorted as [search] sorts its results, with any
    comparator of results in the place of [byScore]. *)
Definition hitsBy (compare : SearchResult -> SearchResult -> Q)
  (searchIndex : SearchIndex) (query : Query)
  (searchOptions : option SearchOptions) : list (N * SearchResult) :=
  sort (λ a c : N * SearchResult, compare a.2 c.2)
    (candidates searchIndex query searchOptions).

(** The results of [search] next to the short id each of them was built
    for. The short id is not part of a result; it is kept here to state
    where a result comes from. *)
Definition hits (searchIndex : SearchIndex) (query : Query)
  (searchOptions : option SearchOptions) : list (N * SearchResult) :=
  hitsBy byScore searchIndex query searchOptions.

(** ** Loading a serialised index *)

(** Modelled from the spec: [loadJSON] and its helpers are not among the
    sources. Section 6 describes the serialised record: [documentIds],
    [fieldLength] and [storedFields] are keyed by the stringified short
    id, [index] lists the terms with their [{fieldId: {shortId: freq}}]
    objects. A key is read back as the number whose decimal digits it
    is. *)
Definition parseKey (key : string) : option N :=
  N.of_uint <$> NilZero.uint_of_string key.

(** Modelled from the spec: an object keyed by stringified numbers is
    turned back into a [Map] keyed by the numbers; a key that is not a
    number has no short id or field id to stand for and is left out. *)
Definition objectToNumericMap {V : Type} (object : gmap string V) : gmap N V :=
  map_fold
    (λ (key : string) (value : V) (m : gmap N V),
       match parseKey key with
       | Some n => <[n := value]> m
       | None => m
       end)
    ∅ object.

(** Modelled from the spec: the [{fieldId: {shortId: freq}}] object of a
    term becomes the field map of the term. *)
Definition loadTerm (data : gmap string SerializedIndexEntry) : FieldTermData :=
  objectToNumericMap (objectToNumericMap <$> data).

(** Modelled from the spec: the posting structure is rebuilt from the
    list of [[term, data]] pairs, one [set] per pair. *)
Definition loadIndex (entries : list (string * gmap string SerializedIndexEntry))
  : gmap string FieldTermData :=
  foldl
    (λ (dict : gmap string FieldTermData)
       (entry : string * gmap string SerializedIndexEntry),
       SearchableMap.set entry.1 (loadTerm entry.2) dict)
    ∅ entries.

(** Modelled from the spec: section 3 keeps two mappings, external id to
    short id and short id to external id; only the second is serialised,
    and the first is its inverse. *)
Definition invertIds (documentIds : gmap N ID) : gmap ID N :=
  map_fold (λ (shortId : N) (id : ID) (m : gmap ID N), <[id := shortId]> m)
    ∅ documentIds.

(** Modelled from the spec: the message of [IncompatibleVersion]; every
    error carries the prefix [SlimSearch: ]. *)
Definition incompatibleVersion : string :=
  "SlimSearch: cannot deserialize an index created with an incompatible version".

(** Modelled from the spec: [loadJSON] is not among the sources. By
    section 6 it takes a serialised record and the options the index was
    created with, fails with [IncompatibleVersion] on a version it does
    not support, accepts version 2, and accepts version 1 with the dirt
    counter set to [0]. The index is constructed from the options and
    filled from the record. *)
Definition loadJSON (js : IndexObject) (options : option SearchIndexOptions)
  : Completion SearchIndex :=
  if negb ((version js =? 2) || (version js =? 1)) then
    Throw (Error incompatibleVersion)
  else
    match constructor options with
    | Throw e => Throw e
    | Return fresh =>
        let documentIds := objectToNumericMap (documentIds js) in
        Return
          {| _options := _options fresh;
             _index := loadIndex (index js);
             _documentCount := documentCount js;
             _documentIds := documentIds;
             _idToShortId := invertIds documentIds;
             _fieldIds := fieldIds js;
             _fieldLength := objectToNumericMap (fieldLength js);
             _avgFieldLength := averageFieldLength js;
             _nextId := nextId js;
             _storedFields := objectToNumericMap (storedFields js);
             _dirtCount :=
               if version js =? 2 then default 0 (dirtCount js) else 0;
             _currentVacuum := _currentVacuum fresh;
             _enqueuedVacuum := _enqueuedVacuum fresh;
             _enqueuedVacuumConditions := _enqueuedVacuumConditions fresh |}
    end.

(** The two id mappings of a state are inverse to each other. *)
Definition ids_consistent (s : SearchIndex) : Prop :=
  ∀ id shortId,
    _idToShortId s !! id = Some shortId ↔ _documentIds s !! shortId = Some id.

(** Two states hold the same options and the same serialised data: they
    agree on every member that [toJSON] writes. The map from external id
    to short id and the bookkeeping of the vacuum may differ. *)
Definition same_data (s s' : SearchIndex) : Prop :=
  _options s = _options s' ∧
  _index s = _index s' ∧
  _documentCount s = _documentCount s' ∧
  _documentIds s = _documentIds s' ∧
  _fieldIds s = _fieldIds s' ∧
  _fieldLength s = _fieldLength s' ∧
  _avgFieldLength s = _avgFieldLength s' ∧
  _nextId s = _nextId s' ∧
  _storedFields s = _storedFields s' ∧
  _dirtCount s = _dirtCount s'.

(** The frequency a serialised term holds for a field and a document. *)
Definition serializedFrequency (data : gmap string SerializedIndexEntry)
  (fieldId documentId : N) : option Z :=
  match data !! propertyKey fieldId with
  | Some entry => entry !! propertyKey documentId
  | None => None
  end.

(** ** What the specification says about search results *)

(** The filter of the options argument of a call, if there is one. *)
Definition callFilter (searchOptions : option SearchOptions)
  (result : SearchResult) : bool :=
  match searchOptions ≫= opt_filter with
  | Some filter => filter result
  | None => true
  end.

(** The number of distinct terms of a list. *)
Definition distinctTerms (terms : list string) : nat :=
  length (remove_dups terms).

(** The accumulated score of an entry times the number of distinct query
    terms it matched. *)
Definition scaledScore (entry : QueryResult) : Q :=
  (qr_score entry * inject_Z (Z.of_nat (distinctTerms (qr_terms entry))))%Q.

(** Every result reports the scaled score of the entry it was built for. *)
Definition reports_scaled_score (searchIndex : SearchIndex) (query : Query)
  (searchOptions : option SearchOptions) : Prop :=
  ∀ docId r, (docId, r) ∈ hits searchIndex query searchOptions →
    ∃ entry,
      (docId, entry) ∈
        executeQuery searchIndex query
          (default emptySearchOptions searchOptions) ∧
      (r_score r == scaledScore entry)%Q.

(** A list of hits in descending order of score. *)
Definition descending (l : list (N * SearchResult)) : Prop :=
  ∀ i j a c, (i < j)%nat → l !! i = Some a → l !! j = Some c →
    (r_score c.2 <= r_score a.2)%Q.

(** A list of hits in descending order of score in which equal scores
    come in ascending order of short id. *)
Definition descending_then_by_id (l : list (N * SearchResult)) : Prop :=
  ∀ i j a c, (i < j)%nat → l !! i = Some a → l !! j = Some c →
    (r_score c.2 <= r_score a.2)%Q ∧
    (r_score a.2 == r_score c.2 → (a.1 < c.1)%N)%Q.

(** The hits whose score is [v], in the order of the list. *)
Definition scoring (v : Q) (l : list (N * SearchResult))
  : list (N * SearchResult) :=
  base.filter (λ hit : N * SearchResult, Qeq_bool (r_score hit.2) v = true) l.

(** ** Postings and the invariants of the dictionary *)

(** The frequency stored for [term] under [fieldId] and [documentId]. *)
Definition posting (dict : gmap string FieldTermData) (term : string)
  (fieldId documentId : N) : option Z :=
  match dict !! term with
  | Some data =>
      match data !! fieldId with
      | Some m => m !! documentId
      | None => None
      end
  | None => None
  end.

(** The documents of [term] in field [fieldId]. *)
Definition posting_field (dict : gmap string FieldTermData) (term : string)
  (fieldId : N) : option DocumentTermFrequencies :=
  match dict !! term with
  | Some data => data !! fieldId
  | None => None
  end.

(** The same as a number: [0] when there is no posting. *)
Definition frequency (dict : gmap string FieldTermData) (term : string)
  (fieldId documentId : N) : Z :=
  default 0 (posting dict term fieldId documentId).

(** Some document has a positive frequency. *)
Definition occurs (m : DocumentTermFrequencies) : Prop :=
  map_Exists (λ (_ : N) (n : Z), 0 < n) m.

(** Some field has a document with a positive frequency. *)
Definition occursInField (data : FieldTermData) : Prop :=
  map_Exists (λ (_ : N) (m : DocumentTermFrequencies), occurs m) data.

(** The invariant of section 3: every term of the dictionary has a posting
    with a positive frequency. *)
Definition has_posting (dict : gmap string FieldTermData) : Prop :=
  map_Forall (λ (_ : string) (data : FieldTermData), occursInField data) dict.

(** A field entry as the data model has it: at least one document, and
    every frequency a positive integer. *)
Definition well_formed_entry (m : DocumentTermFrequencies) : Prop :=
  m ≠ ∅ ∧ map_Forall (λ (_ : N) (n : Z), 1 ≤ n) m.

(** The field map of a term as the data model has it: at least one field,
    and every field entry well formed. *)
Definition well_formed_data (data : FieldTermData) : Prop :=
  data ≠ ∅ ∧
  map_Forall (λ (_ : N) (m : DocumentTermFrequencies), well_formed_entry m) data.

(** The shape the data model of section 3 describes in full: no term
    without a field entry, no field entry without a document, and every
    frequency a positive integer. *)
Definition well_formed (dict : gmap string FieldTermData) : Prop :=
  map_Forall (λ (_ : string) (data : FieldTermData), well_formed_data data) dict.

(** Every frequency of the dictionary is a safe integer: the range in
    which [addTerm] and [removeTerm] count exactly. *)
Definition safe_frequencies (dict : gmap string FieldTermData) : Prop :=
  map_Forall
    (λ (_ : string) (data : FieldTermData),
       map_Forall
         (λ (_ : N) (m : DocumentTermFrequencies),
            map_Forall (λ (_ : N) (n : Z), isSafeInteger n) m)
         data)
    dict.

#[global] Instance isSafeInteger_dec (n : Z) : Decision (isSafeInteger n).
Proof. unfold isSafeInteger. apply _. Defined.

#[global] Instance safe_frequencies_dec (dict : gmap string FieldTermData) :
  Decision (safe_frequencies dict).
Proof. unfold safe_frequencies. apply _. Defined.

#[global] Instance occurs_dec (m : DocumentTermFrequencies) : Decision (occurs m).
Proof. unfold occurs. apply _. Defined.

#[global] Instance occursInField_dec (data : FieldTermData) :
  Decision (occursInField data).
Proof. unfold occursInField. apply _. Defined.

#[global] Instance has_posting_dec (dict : gmap string FieldTermData) :
  Decision (has_posting dict).
Proof. unfold has_posting. apply _. Defined.

#[global] Instance well_formed_entry_dec (m : DocumentTermFrequencies) :
  Decision (well_formed_entry m).
Proof. unfold well_formed_entry. apply _. Defined.

#[global] Instance well_formed_data_dec (data : FieldTermData) :
  Decision (well_formed_data data).
Proof. unfold well_formed_data. apply _. Defined.

#[global] Instance well_formed_dec (dict : gmap string FieldTermData) :
  Decision (well_formed dict).
Proof. unfold well_formed. apply _. Defined.

(** C9 as the specification words it: with counters that are not
    negative, [dirtFactor] is exactly the quotient of [dirtCount] by
    [1 + documentCount + dirtCount], and it lies in [0, 1). *)
Definition quotient_below_one (index : SearchIndex) : Prop :=
  0 ≤ _documentCount index → 0 ≤ _dirtCount index →
  (dirtFactor index ==
   inject_Z (_dirtCount index) /
   inject_Z (1 + _documentCount index + _dirtCount index))%Q ∧
  (0 <= dirtFactor index)%Q ∧ (dirtFactor index < 1)%Q.

(** Sequences of calls to [addTerm] and [removeTerm]. *)
Inductive TermOperation :=
  | AddTerm (fieldId documentId : N) (term : string)
  | RemoveTerm (fieldId documentId : N) (term : string).

Definition applyOperation (index : SearchIndex) (op : TermOperation)
  : Completion (SearchIndex * list LogCall) :=
  match op with
  | AddTerm fieldId documentId term =>
      Return (addTerm index fieldId documentId term, [])
  | RemoveTerm fieldId documentId term =>
      removeTerm index fieldId documentId term
  end.

(** The calls are made one after the other; a throw ends the sequence. *)
Fixpoint applyOperations (index : SearchIndex) (ops : list TermOperation)
  : Completion (SearchIndex * list LogCall) :=
  match ops with
  | [] => Return (index, [])
  | op :: ops =>
      match applyOperation index op with
      | Return (index, logged) =>
          match applyOperations index ops with
          | Return (index, logged') => Return (index, logged ++ logged')
          | Throw e => Throw e
          end
      | Throw e => Throw e
      end
  end.

(** [removeTerm] for each (field, term) of a list, for one document. *)
Definition removePostings (index : SearchIndex) (documentId : N)
  (postings : list (N * string)) : Completion (SearchIndex * list LogCall) :=
  applyOperations index
    (map (λ p : N * string, RemoveTerm p.1 documentId p.2) postings).

(** How often a (field, term) pair occurs in a list of postings. *)
Definition occurrences (fieldId : N) (term : string)
  (postings : list (N * string)) : Z :=
  Z.of_nat (length (base.filter (λ p : N * string, p = (fieldId, term)) postings)).

(** The three ways in which [removeTerm] can miss its posting: the term is
    not in the dictionary, the term has no entry for the field, or the
    field has no entry for the document. *)
Definition posting_missing (dict : gmap string FieldTermData) (term : string)
  (fieldId documentId : N) : Prop :=
  dict !! term = None ∨
  (∃ data, dict !! term = Some data ∧ data !! fieldId = None) ∨
  (∃ data m, dict !! term = Some data ∧ data !! fieldId = Some m ∧
             m !! documentId = None).

(** [removeTerm] on a missing posting warns, returns, and leaves the
    dictionary exactly as it was. *)
Definition warns_and_keeps_dictionary (index : SearchIndex)
  (fieldId documentId : N) (term : string) : Prop :=
  posting_missing (_index index) term fieldId documentId →
  ∃ index',
    removeTerm index fieldId documentId term =
      Return (index', warnDocumentChanged index documentId fieldId term) ∧
    _index index' = _index index.

(** Removing the postings of a document: [postings] lists every posting of
    [documentId] as often as its frequency says. Afterwards no term that
    only this document had is left in the dictionary, and the postings of
    the other documents are where and what they were. *)
Definition removes_document (index : SearchIndex) (documentId : N)
  (postings : list (N * string)) : Prop :=
  (∀ f t, occurrences f t postings = frequency (_index index) t f documentId) →
  ∃ index' logged,
    removePostings index documentId postings = Return (index', logged) ∧
    (∀ t, (∀ f d', d' ≠ documentId → posting (_index index) t f d' = None) →
          _index index' !! t = None) ∧
    (∀ t f d' n, d' ≠ documentId → posting (_index index) t f d' = Some n →
          is_Some (_index index' !! t)) ∧
    (∀ t f d', d' ≠ documentId →
          posting (_index index') t f d' = posting (_index index) t f d').

(** ** Sample values *)

(** Options with plain hooks, for a given logger. *)
Definition sampleOptions (l : Logger) : OptionsWithDefaults :=
  {| fields := ["title"; "text"];
     storeFields := [];
     idField := "id";
     extractField := λ _ _, "";
     tokenize := λ text _, [text];
     processTerm := λ term _, TermString term;
     logger := l;
     autoVacuum := None;
     searchOptions := emptySearchOptions;
     autoSuggestOptions := emptySearchOptions |}.

(** A state without documents that holds the given dictionary. *)
Definition sampleIndex (l : Logger) (dict : gmap string FieldTermData)
  : SearchIndex :=
  {| _options := sampleOptions l;
     _index := dict;
     _documentCount := 0;
     _documentIds := ∅;
     _idToShortId := ∅;
     _fieldIds := {[ "title" := 0%N; "text" := 1%N ]};
     _fieldLength := ∅;
     _avgFieldLength := [];
     _nextId := 0;
     _storedFields := ∅;
     _dirtCount := 0;
     _currentVacuum := None;
     _enqueuedVacuum := None;
     _enqueuedVacuumConditions := None |}.

(** A term without any field entry. *)
Definition bareTerm : gmap string FieldTermData := {[ "a" := ∅ ]}.

(** A term with one posting and one empty field entry. *)
Definition hollowField : gmap string FieldTermData :=
  {[ "a" := {[ 0%N := {[ 1%N := 1 ]}; 1%N := ∅ ]} ]}.

(** Two terms in two documents: [1] has "moby" twice and "dick" once in
    field [0]; [2] has "moby" once in field [1]. *)
Definition twoDocuments : gmap string FieldTermData :=
  {[ "moby" := {[ 0%N := {[ 1%N := 2 ]}; 1%N := {[ 2%N := 1 ]} ]};
     "dick" := {[ 0%N := {[ 1%N := 1 ]} ]} ]}.

(** A state with the given counters. *)
Definition sampleCounters (l : Logger) (documents dirt : Z) : SearchIndex :=
  {| _options := sampleOptions l;
     _index := ∅;
     _documentCount := documents;
     _documentIds := ∅;
     _idToShortId := ∅;
     _fieldIds := {[ "title" := 0%N; "text" := 1%N ]};
     _fieldLength := ∅;
     _avgFieldLength := [];
     _nextId := documents + dirt;
     _storedFields := ∅;
     _dirtCount := dirt;
     _currentVacuum := None;
     _enqueuedVacuum := None;
     _enqueuedVacuumConditions := None |}.

(** Search options that only set the BM25+ parameters. *)
Definition bm25Only (p : BM25Params) : SearchOptions :=
  {| opt_fields := None; opt_filter := None; opt_boost := None;
     opt_boostTerm := None; opt_weights := None; opt_boostDocument := None;
     opt_prefix := None; opt_fuzzy := None; opt_maxFuzzy := None;
     opt_combineWith := None; opt_tokenize := None; opt_processTerm := None;
     opt_bm25 := Some p |}.

(** Search options that only set a filter. *)
Definition filterOnly (f : SearchResult -> bool) : SearchOptions :=
  {| opt_fields := None; opt_filter := Some f; opt_boost := None;
     opt_boostTerm := None; opt_weights := None; opt_boostDocument := None;
     opt_prefix := None; opt_fuzzy := None; opt_maxFuzzy := None;
     opt_combineWith := None; opt_tokenize := None; opt_processTerm := None;
     opt_bm25 := None |}.

(** Constructor options that name the fields and the default search
    options, and nothing else. *)
Definition fieldsAnd (names : list string) (defaults : option SearchOptions)
  : SearchIndexOptions :=
  {| cfg_fields := Some names; cfg_idField := None; cfg_storeFields := None;
     cfg_extractField := None; cfg_tokenize := None; cfg_processTerm := None;
     cfg_logger := None; cfg_autoVacuum := None;
     cfg_searchOptions := defaults; cfg_autoSuggestOptions := None |}.

(** Constructor options with negative BM25+ parameters. *)
Definition negativeParameters : SearchIndexOptions :=
  fieldsAnd ["title"; "text"]
    (Some (bm25Only {| k := (-1)%Q; b := (-1)%Q; d := (-1)%Q |})).

(** Constructor options whose default filter rejects every result. *)
Definition rejectingDefaults : SearchIndexOptions :=
  fieldsAnd ["title"; "text"] (Some (filterOnly (λ _, false))).

(** An entry of the combined results: one query term, score one. *)
Definition sampleEntry : QueryResult :=
  {| qr_score := 1; qr_terms := ["zen"]; qr_match := [("zen", ["title"])] |}.

(** Combined results that list document [5] before document [2], with the
    same score. *)
Definition tiedResults : list (N * QueryResult) :=
  [(5%N, sampleEntry); (2%N, sampleEntry)].

(** Stored fields that hold a field named [score] and nothing else. *)
Definition storedScore (v : Q) : StoredFields :=
  {| stored_id := None; stored_score := Some v; stored_terms := None;
     stored_match := None; stored_other := ∅ |}.

(** A state with documents [2] and [5], known under the external ids
    [second] and [fifth], with the given stored fields. *)
Definition sampleDocuments (l : Logger) (second fifth : ID)
  (stored : gmap N StoredFields) : SearchIndex :=
  {| _options := sampleOptions l;
     _index := {[ "zen" := {[ 0%N := {[ 2%N := 1; 5%N := 1 ]} ]} ]};
     _documentCount := 2;
     _documentIds := {[ 2%N := second; 5%N := fifth ]};
     _idToShortId := {[ second := 2%N; fifth := 5%N ]};
     _fieldIds := {[ "title" := 0%N; "text" := 1%N ]};
     _fieldLength := {[ 2%N := [1; 0]; 5%N := [1; 0] ]};
     _avgFieldLength := [1%Q; 0%Q];
     _nextId := 6;
     _storedFields := stored;
     _dirtCount := 0;
     _currentVacuum := None;
     _enqueuedVacuum := None;
     _enqueuedVacuumConditions := None |}.

(** A stand-in for [executeQuery] that reads the dictionary: a query
    string is looked up as one term in field [0], and every document of
    the posting scores its frequency. *)
Definition lookupQuery (s : SearchIndex) (q : Query) (o : SearchOptions)
  : list (N * QueryResult) :=
  match q with
  | QueryString term =>
      match posting_field (_index s) term 0%N with
      | Some m =>
          (λ hit : N * Z,
             (hit.1, {| qr_score := inject_Z hit.2; qr_terms := [term];
                        qr_match := [(term, ["title"])] |})) <$>
          map_to_list m
      | None => []
      end
  | _ => []
  end.

(** The constructor options that give [sampleOptions] when the defaults
    are [sampleOptions] themselves. *)
Definition sampleConstruction : SearchIndexOptions :=
  {| cfg_fields := Some ["title"; "text"]; cfg_idField := None;
     cfg_storeFields := None; cfg_extractField := None; cfg_tokenize := None;
     cfg_processTerm := None; cfg_logger := None;
     cfg_autoVacuum := Some (AutoVacuumBool false);
     cfg_searchOptions := None; cfg_autoSuggestOptions := None |}.

(** ** The claims about the constructor, as the specification words them *)

Definition negativeBM25 (options : SearchIndexOptions) : Prop :=
  ∃ so p, cfg_searchOptions options = Some so ∧ opt_bm25 so = Some p ∧
          (k p < 0 ∨ b p < 0 ∨ d p < 0)%Q.

(** Invalid options: [fields] is missing, or a BM25+ parameter is
    negative. *)
Definition invalidOptions (options : option SearchIndexOptions) : Prop :=
  options ≫= cfg_fields = None ∨
  ∃ o, options = Some o ∧ negativeBM25 o.

(** The constructor throws an error whose message starts with
    [SlimSearch: ]; a throw leaves no state. *)
Definition rejected (options : option SearchIndexOptions) : Prop :=
  ∃ text, constructor options = Throw (Error text) ∧
          String.prefix "SlimSearch: " text = true.

(** ** Further notions for the properties of the term operations *)

(** The field map of a term; a term that is not in the dictionary has
    none of its own, and [fetch] would install an empty one. *)
Definition fieldData (dict : gmap string FieldTermData) (term : string)
  : FieldTermData :=
  default ∅ (dict !! term).

(** The documents of a term in a field, empty when there is no entry. *)
Definition documentsOf (dict : gmap string FieldTermData) (term : string)
  (fieldId : N) : DocumentTermFrequencies :=
  default ∅ (fieldData dict term !! fieldId).

(** A call to the logger as [warnDocumentChanged] makes it. *)
Definition isVersionConflict (call : LogCall) : Prop :=
  level call = LogWarn ∧ code call = Some "version_conflict" ∧
  ∃ documentId fieldId term,
    message call = DocumentChanged documentId fieldId term.

(** Whether an operation is a call to [removeTerm]. *)
Definition isRemoval (op : TermOperation) : bool :=
  match op with
  | RemoveTerm _ _ _ => true
  | AddTerm _ _ _ => false
  end.

(** The number of [removeTerm] calls in a sequence of operations. *)
Definition removals (ops : list TermOperation) : nat :=
  length (base.filter (λ op, isRemoval op = true) ops).

(** ** Further sample values *)

(** The same state with a vacuum under way. *)
Definition pendingVacuum (s : SearchIndex) : SearchIndex :=
  {| _options := _options s;
     _index := _index s;
     _documentCount := _documentCount s;
     _documentIds := _documentIds s;
     _idToShortId := _idToShortId s;
     _fieldIds := _fieldIds s;
     _fieldLength := _fieldLength s;
     _avgFieldLength := _avgFieldLength s;
     _nextId := _nextId s;
     _storedFields := _storedFields s;
     _dirtCount := _dirtCount s;
     _currentVacuum := Some tt;
     _enqueuedVacuum := _enqueuedVacuum s;
     _enqueuedVacuumConditions := _enqueuedVacuumConditions s |}.

(** A filter: the results that have an external id. *)
Definition hasId (r : SearchResult) : bool :=
  match r_id r with
  | Some _ => true
  | None => false
  end.

(** Stored fields that hold one field that [search] does not use itself. *)
Definition storedCategory (v : Value) : StoredFields :=
  {| stored_id := None; stored_score := None; stored_terms := None;
     stored_match := None; stored_other := {[ "category" := v ]} |}.

(** * Properties *)

(** Closes [¬ (t = t' ∧ f = f' ∧ d = d')] when one of the three is known
    to differ. *)
Ltac differ :=
  let H := fresh in intros H; destruct H as (? & ? & ?); congruence.

(** ** The state record *)

Lemma with_index_same (s : SearchIndex) : with_index s (_index s) = s.
Proof. by destruct s. Qed.

Lemma with_index_twice (s : SearchIndex) (d1 d2 : gmap string FieldTermData) :
  with_index (with_index s d1) d2 = with_index s d2.
Proof. done. Qed.

(** ** The two copies of term.ts agree *)

Lemma or_zero_nullish (a : option Z) : or_zero a = nullish_zero a.
Proof.
  destruct a as [n|]; simpl; [|done].
  destruct (Z.eqb_spec n 0); congruence.
Qed.

Lemma addTerm'_addTerm (s : SearchIndex) (f d : N) (t : string) :
  addTerm' s f d t = addTerm s f d t.
Proof.
  unfold addTerm', addTerm.
  destruct (SearchableMap.fetch t createMap (_index s)) as [data dict].
  destruct (data !! f); [|done]. by rewrite or_zero_nullish.
Qed.

Lemma removeTerm'_removeTerm (s : SearchIndex) (f d : N) (t : string) :
  removeTerm' s f d t = removeTerm s f d t.
Proof.
  unfold removeTerm', removeTerm.
  destruct (negb _); [done|].
  destruct (SearchableMap.fetch t createMap (_index s)) as [data dict].
  destruct (data !! f) as [m|]; simpl; [|done].
  by destruct (m !! d).
Qed.

(** ** What [addTerm] and [removeTerm] do to the dictionary *)

Lemma addTerm_index (s : SearchIndex) (f d : N) (t : string) :
  _index (addTerm s f d t) =
  let data := default ∅ (_index s !! t) in
  let m := default ∅ (data !! f) in
  <[t := <[f := <[d := or_zero (m !! d) + 1]> m]> data]> (_index s).
Proof.
  unfold addTerm, SearchableMap.fetch, SearchableMap.set, createMap.
  destruct (_index s !! t) as [data|] eqn:Ht; simpl.
  - destruct (data !! f) as [m|] eqn:Hf; simpl; [done|].
    by rewrite lookup_empty.
  - rewrite lookup_empty. simpl. by rewrite insert_insert_eq, lookup_empty.
Qed.

Lemma posting_insert (dict : gmap string FieldTermData) (t t' : string)
  (data : FieldTermData) (f' d' : N) :
  posting (<[t := data]> dict) t' f' d' =
  if decide (t = t')
  then match data !! f' with Some m => m !! d' | None => None end
  else posting dict t' f' d'.
Proof.
  unfold posting. rewrite lookup_insert. by case_decide.
Qed.

Lemma posting_delete (dict : gmap string FieldTermData) (t t' : string)
  (f' d' : N) :
  posting (base.delete t dict) t' f' d' =
  if decide (t = t') then None else posting dict t' f' d'.
Proof.
  unfold posting. rewrite lookup_delete. by case_decide.
Qed.

(** [addTerm] adds one to the frequency of its posting and leaves every
    other posting as it was. *)
Lemma posting_addTerm (s : SearchIndex) (f d : N) (t : string)
  (t' : string) (f' d' : N) :
  posting (_index (addTerm s f d t)) t' f' d' =
  if decide (t = t' ∧ f = f' ∧ d = d')
  then Some (or_zero (posting (_index s) t f d) + 1)
  else posting (_index s) t' f' d'.
Proof.
  rewrite addTerm_index. simpl. rewrite posting_insert.
  destruct (decide (t = t')) as [<-|Ht];
    [|rewrite decide_False by differ; done].
  rewrite lookup_insert. unfold posting.
  destruct (decide (f = f')) as [<-|Hf].
  - rewrite lookup_insert.
    destruct (decide (d = d')) as [<-|Hd].
    + rewrite decide_True by done.
      destruct (_index s !! t) as [data|]; simpl; [|by rewrite !lookup_empty].
      destruct (data !! f) as [m|]; simpl; [done|by rewrite lookup_empty].
    + rewrite decide_False by differ.
      destruct (_index s !! t) as [data|]; simpl; [|by rewrite !lookup_empty].
      destruct (data !! f) as [m|]; simpl; [done|by rewrite lookup_empty].
  - rewrite decide_False by differ.
    destruct (_index s !! t) as [data|]; simpl; [done|by rewrite lookup_empty].
Qed.

(** [removeTerm] on a posting that is there. *)
Lemma removeTerm_Some (s : SearchIndex) (f d : N) (t : string)
  (data : FieldTermData) (m : DocumentTermFrequencies) (a : Z) :
  _index s !! t = Some data → data !! f = Some m → m !! d = Some a →
  removeTerm s f d t =
  let data' :=
    if a <=? 1 then
      if (size m <=? 1)%nat then base.delete f data
      else <[f := base.delete d m]> data
    else <[f := <[d := a - 1]> m]> data in
  Return (with_index s
            (if (size data' =? 0)%nat then base.delete t (_index s)
             else <[t := data']> (_index s)), []).
Proof.
  intros Ht Hf Hd. unfold removeTerm, SearchableMap.has, SearchableMap.fetch.
  rewrite Ht, bool_decide_eq_true_2 by eauto. simpl. rewrite Hf, Hd.
  unfold dropEmptyTerm, SearchableMap.get, SearchableMap.set,
    SearchableMap.delete.
  destruct (a <=? 1); [destruct (size m <=? 1)%nat|];
    rewrite lookup_insert_eq, delete_insert_eq;
    match goal with |- context [(size ?x =? 0)%nat] =>
      destruct (size x =? 0)%nat end; done.
Qed.

(** [removeTerm] on a posting that is not there: a warning, and the
    dictionary is as before unless the term has an empty field map. *)
Lemma removeTerm_None (s : SearchIndex) (f d : N) (t : string) :
  posting (_index s) t f d = None →
  removeTerm s f d t =
  Return (with_index s
            (match _index s !! t with
             | Some data =>
                 if (size data =? 0)%nat then base.delete t (_index s)
                 else _index s
             | None => _index s
             end),
          warnDocumentChanged s d f t).
Proof.
  unfold posting, removeTerm, SearchableMap.has, SearchableMap.fetch.
  destruct (_index s !! t) as [data|] eqn:Ht.
  - intros Hp. rewrite bool_decide_eq_true_2 by eauto. simpl.
    unfold dropEmptyTerm, SearchableMap.get, SearchableMap.set,
      SearchableMap.delete.
    assert (Hsame : <[t := data]> (_index s) = _index s) by by apply insert_id.
    destruct (data !! f) as [m|]; [rewrite Hp|]; rewrite Hsame, Ht;
      destruct (size data =? 0)%nat; done.
  - intros _. rewrite bool_decide_eq_false_2 by (intros [? ?]; done).
    simpl. by rewrite with_index_same.
Qed.

(** ** Well-formed dictionaries *)

Lemma well_formed_lookup (dict : gmap string FieldTermData) (t : string)
  (data : FieldTermData) (f : N) (m : DocumentTermFrequencies) :
  well_formed dict → dict !! t = Some data → data !! f = Some m →
  data ≠ ∅ ∧ m ≠ ∅ ∧ map_Forall (λ (_ : N) (n : Z), 1 ≤ n) m ∧
  map_Forall (λ (_ : N) (m : DocumentTermFrequencies), well_formed_entry m) data.
Proof.
  intros Hwf Ht Hf. destruct (Hwf t data Ht) as [Hne Hdata].
  destruct (Hdata f m Hf) as [Hm Hfreq]. done.
Qed.

Lemma well_formed_posting (dict : gmap string FieldTermData) (t : string)
  (f d : N) (n : Z) :
  well_formed dict → posting dict t f d = Some n → 1 ≤ n.
Proof.
  unfold posting. intros Hwf Hp.
  destruct (dict !! t) as [data|] eqn:Ht; [|done].
  destruct (data !! f) as [m|] eqn:Hf; [|done].
  destruct (well_formed_lookup dict t data f m Hwf Ht Hf) as (_ & _ & Hfreq & _).
  by apply (Hfreq d n).
Qed.

(** A term of a well-formed dictionary has a posting. *)
Lemma well_formed_term_posting (dict : gmap string FieldTermData) (t : string)
  (data : FieldTermData) :
  well_formed dict → dict !! t = Some data →
  ∃ f d n, posting dict t f d = Some n ∧ 1 ≤ n.
Proof.
  intros Hwf Ht. destruct (Hwf t data Ht) as [Hne Hdata].
  destruct (map_choose data Hne) as (f & m & Hf).
  destruct (Hdata f m Hf) as [Hm Hfreq].
  destruct (map_choose m Hm) as (d & n & Hd).
  exists f, d, n. unfold posting. rewrite Ht, Hf. split; [done|].
  by apply (Hfreq d n).
Qed.

(** The data model implies the invariant of the specification. *)
Lemma well_formed_has_posting (dict : gmap string FieldTermData) :
  well_formed dict → has_posting dict.
Proof.
  intros Hwf t data Ht. destruct (Hwf t data Ht) as [Hne Hdata].
  destruct (map_choose data Hne) as (f & m & Hf).
  destruct (Hdata f m Hf) as [Hm Hfreq].
  destruct (map_choose m Hm) as (d & n & Hd).
  exists f, m. split; [done|]. exists d, n. split; [done|].
  specialize (Hfreq d n Hd). simpl in Hfreq. lia.
Qed.

(** A well-formed dictionary is determined by its postings. *)
Lemma well_formed_ext (dict1 dict2 : gmap string FieldTermData) :
  well_formed dict1 → well_formed dict2 →
  (∀ t f d, posting dict1 t f d = posting dict2 t f d) →
  dict1 = dict2.
Proof.
  assert (Hsub : ∀ (a c : gmap string FieldTermData),
    well_formed a → well_formed c →
    (∀ t f d, posting a t f d = posting c t f d) →
    ∀ t data, a !! t = Some data →
      ∃ data', c !! t = Some data' ∧
        ∀ f m, data !! f = Some m → data' !! f = Some m).
  { intros a c Ha Hc Heq t data Ht.
    destruct (well_formed_term_posting a t data Ha Ht) as (f0 & d0 & n0 & Hp & _).
    rewrite Heq in Hp. unfold posting in Hp.
    destruct (c !! t) as [data'|] eqn:Ht'; [|done].
    exists data'. split; [done|]. intros f m Hf.
    destruct (well_formed_lookup a t data f m Ha Ht Hf) as (_ & Hm & _ & _).
    destruct (map_choose m Hm) as (d1 & n1 & Hd1).
    pose proof (Heq t f d1) as Hq. unfold posting in Hq.
    rewrite Ht, Ht', Hf, Hd1 in Hq.
    destruct (data' !! f) as [m'|] eqn:Hf'; [|done].
    f_equal. apply map_eq. intros d2.
    pose proof (Heq t f d2) as Hq2. unfold posting in Hq2.
    by rewrite Ht, Ht', Hf, Hf' in Hq2. }
  intros H1 H2 Heq. apply map_eq. intros t.
  assert (Hdata : ∀ (a c : gmap string FieldTermData),
    well_formed a → well_formed c →
    (∀ t f d, posting a t f d = posting c t f d) →
    ∀ data data', a !! t = Some data → c !! t = Some data' → data = data').
  { intros a c Ha Hc Hac data data' Hd Hd'. apply map_eq. intros f.
    destruct (data !! f) as [m|] eqn:Hf.
    - destruct (Hsub a c Ha Hc Hac t data Hd) as (x & Hx & Hxf).
      rewrite Hd' in Hx. injection Hx as <-. symmetry. by apply Hxf.
    - destruct (data' !! f) as [m'|] eqn:Hf'; [|done].
      destruct (Hsub c a Hc Ha (λ t f d, eq_sym (Hac t f d)) t data' Hd')
        as (x & Hx & Hxf).
      rewrite Hd in Hx. injection Hx as <-.
      rewrite (Hxf f m' Hf') in Hf. done. }
  destruct (dict1 !! t) as [data|] eqn:Ht1.
  - destruct (Hsub dict1 dict2 H1 H2 Heq t data Ht1) as (data' & Ht2 & _).
    rewrite Ht2. f_equal. by apply (Hdata dict1 dict2).
  - destruct (dict2 !! t) as [data'|] eqn:Ht2; [|done].
    destruct (Hsub dict2 dict1 H2 H1 (λ t f d, eq_sym (Heq t f d)) t data' Ht2)
      as (x & Hx & _).
    by rewrite Ht1 in Hx.
Qed.

Lemma well_formed_addTerm (s : SearchIndex) (f d : N) (t : string) :
  well_formed (_index s) → well_formed (_index (addTerm s f d t)).
Proof.
  intros Hwf. rewrite addTerm_index. simpl.
  apply map_Forall_insert_2; [|done].
  split; [apply insert_non_empty|].
  assert (Hdata : map_Forall
    (λ (_ : N) (m : DocumentTermFrequencies), well_formed_entry m)
    (default ∅ (_index s !! t))).
  { destruct (_index s !! t) as [data|] eqn:Ht; simpl.
    - by destruct (Hwf t data Ht).
    - apply map_Forall_empty. }
  apply map_Forall_insert_2; [|done].
  split; [apply insert_non_empty|].
  assert (Hm : map_Forall (λ (_ : N) (n : Z), 1 ≤ n)
    (default ∅ (default ∅ (_index s !! t) !! f))).
  { destruct (default ∅ (_index s !! t) !! f) as [m|] eqn:Hf; simpl.
    - by destruct (Hdata f m Hf).
    - apply map_Forall_empty. }
  apply map_Forall_insert_2; [|done].
  destruct (default ∅ (default ∅ (_index s !! t) !! f) !! d) as [n|] eqn:Hd;
    simpl; [|lia].
  specialize (Hm d n Hd). simpl in Hm.
  destruct (Z.eqb_spec n 0); lia.
Qed.

(** A map of at most one entry has no other key than the one it has. *)
Lemma size_le_1_lookup (m : DocumentTermFrequencies) (d d' : N) (a : Z) :
  (size m ≤ 1)%nat → m !! d = Some a → d ≠ d' → m !! d' = None.
Proof.
  intros Hsize Hd Hne.
  assert (Hdel : base.delete d m = ∅).
  { apply map_size_empty_iff. rewrite map_size_delete_Some by eauto. lia. }
  rewrite <- (lookup_delete_ne m d d') by done.
  by rewrite Hdel, lookup_empty.
Qed.

(** [removeTerm] on a posting of a well-formed dictionary: no warning, the
    frequency goes down by one, the posting goes away at frequency one,
    every other posting stays, and the dictionary stays well formed. *)
Lemma removeTerm_present (s : SearchIndex) (f d : N) (t : string) (a : Z) :
  well_formed (_index s) → posting (_index s) t f d = Some a →
  ∃ dict',
    removeTerm s f d t = Return (with_index s dict', []) ∧
    well_formed dict' ∧
    ∀ t' f' d',
      posting dict' t' f' d' =
      if decide (t = t' ∧ f = f' ∧ d = d')
      then (if decide (a = 1) then None else Some (a - 1))
      else posting (_index s) t' f' d'.
Proof.
  intros Hwf Hp. pose proof (well_formed_posting _ _ _ _ _ Hwf Hp) as Ha.
  unfold posting in Hp.
  destruct (_index s !! t) as [data|] eqn:Ht; [|done].
  destruct (data !! f) as [m|] eqn:Hf; [|done].
  destruct (well_formed_lookup _ t data f m Hwf Ht Hf) as (Hne & Hm & Hfreq & Hdata).
  rewrite (removeTerm_Some s f d t data m a Ht Hf Hp). simpl.
  destruct (Z.leb_spec a 1) as [Hle|Hgt].
  - assert (a = 1) as -> by lia.
    destruct (Nat.leb_spec (size m) 1) as [Hsize|Hsize].
    + (* the field entry goes *)
      destruct (Nat.eqb_spec (size (base.delete f data)) 0) as [Hzero|Hzero].
      * (* and the term with it *)
        apply map_size_empty_iff in Hzero.
        eexists. split; [done|]. split; [by apply map_Forall_delete|].
        intros t' f' d'. rewrite posting_delete.
        destruct (decide (t = t')) as [<-|Hne'];
          [|rewrite decide_False by differ; done].
        unfold posting. rewrite Ht.
        destruct (decide (f = f')) as [<-|Hf'].
        -- rewrite Hf. destruct (decide (d = d')) as [<-|Hd'].
           ++ by rewrite decide_True.
           ++ rewrite decide_False by differ.
              symmetry. by eapply size_le_1_lookup.
        -- rewrite decide_False by differ.
           rewrite <- (lookup_delete_ne data f f') by done.
           by rewrite Hzero, lookup_empty.
      * eexists. split; [done|]. split.
        { apply map_Forall_insert_2; [|done]. split.
          - by apply map_size_non_empty_iff.
          - by apply map_Forall_delete. }
        intros t' f' d'. rewrite posting_insert.
        destruct (decide (t = t')) as [<-|Hne'];
          [|rewrite decide_False by differ; done].
        unfold posting. rewrite Ht, lookup_delete.
        destruct (decide (f = f')) as [<-|Hf'].
        -- rewrite Hf. destruct (decide (d = d')) as [<-|Hd'].
           ++ by rewrite decide_True.
           ++ rewrite decide_False by differ.
              symmetry. by eapply size_le_1_lookup.
        -- by rewrite decide_False by differ.
    + (* only the document goes *)
      assert (Hrest : base.delete d m ≠ ∅).
      { apply map_size_non_empty_iff.
        rewrite map_size_delete_Some by eauto. lia. }
      destruct (Nat.eqb_spec (size (<[f := base.delete d m]> data)) 0)
        as [Hzero|Hzero].
      { apply map_size_empty_iff in Hzero. by apply insert_non_empty in Hzero. }
      eexists. split; [done|]. split.
      { apply map_Forall_insert_2; [|done]. split; [apply insert_non_empty|].
        apply map_Forall_insert_2; [|done]. split; [done|].
        by apply map_Forall_delete. }
      intros t' f' d'. rewrite posting_insert.
      destruct (decide (t = t')) as [<-|Hne'];
        [|rewrite decide_False by differ; done].
      unfold posting. rewrite Ht, lookup_insert.
      destruct (decide (f = f')) as [<-|Hf'].
      * rewrite Hf, lookup_delete. destruct (decide (d = d')) as [<-|Hd'].
        -- by rewrite decide_True.
        -- by rewrite decide_False by differ.
      * by rewrite decide_False by differ.
  - (* the frequency goes down *)
    destruct (Nat.eqb_spec (size (<[f := <[d := a - 1]> m]> data)) 0)
      as [Hzero|Hzero].
    { apply map_size_empty_iff in Hzero. by apply insert_non_empty in Hzero. }
    eexists. split; [done|]. split.
    { apply map_Forall_insert_2; [|done]. split; [apply insert_non_empty|].
      apply map_Forall_insert_2; [|done]. split; [apply insert_non_empty|].
      apply map_Forall_insert_2; [lia|done]. }
    intros t' f' d'. rewrite posting_insert.
    destruct (decide (t = t')) as [<-|Hne'];
      [|rewrite decide_False by differ; done].
    unfold posting. rewrite Ht, lookup_insert.
    destruct (decide (f = f')) as [<-|Hf'].
    + rewrite Hf, lookup_insert. destruct (decide (d = d')) as [<-|Hd'].
      * rewrite decide_True by done. by rewrite decide_False by lia.
      * by rewrite decide_False by differ.
    + by rewrite decide_False by differ.
Qed.

(** [removeTerm] on a posting that a well-formed dictionary does not have:
    a warning, and nothing else. *)
Lemma removeTerm_absent (s : SearchIndex) (f d : N) (t : string) :
  well_formed (_index s) → posting (_index s) t f d = None →
  removeTerm s f d t = Return (s, warnDocumentChanged s d f t).
Proof.
  intros Hwf Hp. rewrite removeTerm_None by done.
  destruct (_index s !! t) as [data|] eqn:Ht; [|by rewrite with_index_same].
  destruct (Hwf t data Ht) as [Hne _].
  apply map_size_non_empty_iff in Hne.
  destruct (Nat.eqb_spec (size data) 0); [done|]. by rewrite with_index_same.
Qed.

(** ** Sequences of term operations *)

Lemma applyOperations_well_formed (ops : list TermOperation) (s : SearchIndex) :
  well_formed (_index s) →
  ∃ s' logged,
    applyOperations s ops = Return (s', logged) ∧ well_formed (_index s').
Proof.
  revert s. induction ops as [|op ops IH]; intros s Hwf; simpl.
  - by exists s, [].
  - assert (Hstep : ∃ s1 l1,
      applyOperation s op = Return (s1, l1) ∧ well_formed (_index s1)).
    { destruct op as [f d t|f d t]; simpl.
      - eexists _, _. split; [done|]. by apply well_formed_addTerm.
      - destruct (posting (_index s) t f d) as [a|] eqn:Hp.
        + destruct (removeTerm_present s f d t a Hwf Hp) as (dict' & -> & Hwf' & _).
          by eexists _, _.
        + rewrite removeTerm_absent by done. by eexists _, _. }
    destruct Hstep as (s1 & l1 & -> & Hwf1).
    destruct (IH s1 Hwf1) as (s' & l' & -> & Hwf').
    by eexists _, _.
Qed.

(** C1. Starting from an empty dictionary, every sequence of [addTerm] and
    [removeTerm] calls runs to its end, and in the state it reaches every
    term of the dictionary has a posting with a positive frequency; one
    more [addTerm] or [removeTerm] keeps it so. *)
Theorem term_operations_keep_postings (s0 : SearchIndex)
  (ops : list TermOperation) :
  ∃ s logged,
    applyOperations (with_index s0 ∅) ops = Return (s, logged) ∧
    has_posting (_index s) ∧
    ∀ f d t,
      has_posting (_index (addTerm s f d t)) ∧
      ∃ s' logged',
        removeTerm s f d t = Return (s', logged') ∧ has_posting (_index s').
Proof.
  destruct (applyOperations_well_formed ops (with_index s0 ∅))
    as (s & logged & Hrun & Hwf); [apply map_Forall_empty|].
  exists s, logged. split; [done|].
  split; [by apply well_formed_has_posting|].
  intros f d t. split.
  - by apply well_formed_has_posting, well_formed_addTerm.
  - destruct (applyOperations_well_formed [RemoveTerm f d t] s Hwf)
      as (s' & logged' & Hrun' & Hwf').
    simpl in Hrun'. destruct (removeTerm s f d t) as [[s1 l1]|]; [|done].
    injection Hrun' as <- _. exists s1, l1.
    split; [done|]. by apply well_formed_has_posting.
Qed.

(** ** Removing a posting that is not there *)

Lemma posting_missing_None (dict : gmap string FieldTermData) (t : string)
  (f d : N) :
  posting_missing dict t f d ↔ posting dict t f d = None.
Proof.
  unfold posting_missing, posting. split.
  - intros [Ht|[(data & Ht & Hf)|(data & m & Ht & Hf & Hd)]].
    + by rewrite Ht.
    + by rewrite Ht, Hf.
    + by rewrite Ht, Hf.
  - destruct (dict !! t) as [data|] eqn:Ht; [|by left].
    destruct (data !! f) as [m|] eqn:Hf.
    + intros Hd. right. right. by exists data, m.
    + intros _. right. left. by exists data.
Qed.

(** C2, as the code has it. When the term, its field entry or the
    document's entry under that field is missing, [removeTerm] (in both
    copies of the module) makes one call to the logger, the warning
    [DocumentChanged] with the code [version_conflict], and returns
    without throwing. No posting is changed. The state is the one it was,
    except that a term whose field map is empty is taken out of the
    dictionary. *)
Theorem removeTerm_missing_posting (s : SearchIndex) (f d : N) (t : string) :
  posting_missing (_index s) t f d →
  ∃ s',
    removeTerm s f d t =
      Return (s', [ {| level := LogWarn;
                       message := DocumentChanged d f t;
                       code := Some "version_conflict" |} ]) ∧
    removeTerm' s f d t = removeTerm s f d t ∧
    (∀ t' f' d', posting (_index s') t' f' d' = posting (_index s) t' f' d') ∧
    (_index s !! t ≠ Some ∅ → s' = s) ∧
    (_index s !! t = Some ∅ → s' = with_index s (base.delete t (_index s))).
Proof.
  intros Hmiss%posting_missing_None.
  pose proof (removeTerm_None s f d t Hmiss) as Hrun.
  eexists. split; [exact Hrun|].
  split; [apply removeTerm'_removeTerm|]. clear Hrun.
  destruct (_index s !! t) as [data|] eqn:Ht.
  - destruct (Nat.eqb_spec (size data) 0) as [Hzero|Hzero].
    + apply map_size_empty_iff in Hzero. subst data.
      split; [|split; [done|done]].
      intros t' f' d'. simpl. rewrite posting_delete.
      destruct (decide (t = t')) as [<-|Hne]; [|done].
      unfold posting. by rewrite Ht, lookup_empty.
    + rewrite with_index_same. split; [done|]. split; [done|].
      intros [= ->]. by rewrite map_size_empty in Hzero.
  - rewrite with_index_same. done.
Qed.

(** ** Removing the postings of a document *)

Lemma occurrences_cons (f f0 : N) (t t0 : string) (l : list (N * string)) :
  occurrences f t ((f0, t0) :: l) =
  (if decide ((f0, t0) = (f, t)) then 1 else 0) + occurrences f t l.
Proof.
  unfold occurrences. rewrite filter_cons.
  destruct (decide ((f0, t0) = (f, t))); simpl; lia.
Qed.

Lemma occurrences_nonneg (f : N) (t : string) (l : list (N * string)) :
  0 ≤ occurrences f t l.
Proof. unfold occurrences. lia. Qed.

Lemma removePostings_cons (s : SearchIndex) (d f : N) (t : string)
  (l : list (N * string)) (dict : gmap string FieldTermData) :
  removeTerm s f d t = Return (with_index s dict, []) →
  removePostings s d ((f, t) :: l) = removePostings (with_index s dict) d l.
Proof.
  unfold removePostings. simpl. intros ->.
  by destruct (applyOperations _ _) as [[s' l']|].
Qed.

(** Removing postings a well-formed dictionary has, each at most as often
    as its frequency allows: no warning, the frequencies of the document
    go down by the number of removals, nothing else changes. *)
Lemma removePostings_frequencies (l : list (N * string)) (s : SearchIndex)
  (d : N) :
  well_formed (_index s) →
  (∀ f t, occurrences f t l ≤ frequency (_index s) t f d) →
  ∃ dict',
    removePostings s d l = Return (with_index s dict', []) ∧
    well_formed dict' ∧
    (∀ t f, frequency dict' t f d =
            frequency (_index s) t f d - occurrences f t l) ∧
    (∀ t f d', d' ≠ d → posting dict' t f d' = posting (_index s) t f d').
Proof.
  revert s. induction l as [|[f0 t0] l IH]; intros s Hwf Hocc.
  - exists (_index s). rewrite with_index_same. split; [done|].
    split; [done|]. split; [|done].
    intros t f. unfold occurrences. simpl. lia.
  - pose proof (Hocc f0 t0) as Hfirst. rewrite occurrences_cons in Hfirst.
    rewrite decide_True in Hfirst by done.
    pose proof (occurrences_nonneg f0 t0 l) as Hnn.
    unfold frequency in Hfirst.
    destruct (posting (_index s) t0 f0 d) as [a|] eqn:Hp; simpl in Hfirst;
      [|lia].
    destruct (removeTerm_present s f0 d t0 a Hwf Hp)
      as (dict1 & Hrun & Hwf1 & Hpost).
    assert (Hfreq1 : ∀ t f, frequency dict1 t f d =
      frequency (_index s) t f d -
      (if decide ((f0, t0) = (f, t)) then 1 else 0)).
    { intros t f. unfold frequency. rewrite Hpost.
      destruct (decide ((f0, t0) = (f, t))) as [[= <- <-]|Hne].
      - rewrite decide_True by done. rewrite Hp. simpl.
        destruct (decide (a = 1)); simpl; lia.
      - rewrite decide_False by (intros (-> & -> & _); done). lia. }
    destruct (IH (with_index s dict1)) as (dict' & Hrun' & Hwf' & Hfreq & Hother).
    { done. }
    { intros f t. simpl. rewrite Hfreq1.
      specialize (Hocc f t). rewrite occurrences_cons in Hocc. lia. }
    exists dict'. rewrite (removePostings_cons s d f0 t0 l dict1 Hrun).
    split; [done|]. split; [done|]. split.
    + intros t f. rewrite Hfreq. simpl. rewrite Hfreq1, occurrences_cons. lia.
    + intros t f d' Hd'. rewrite Hother by done. simpl. rewrite Hpost.
      by rewrite decide_False by (intros (_ & _ & ->); done).
Qed.

(** [removeTerm] undoes [addTerm] on a well-formed dictionary. *)
Lemma removeTerm_addTerm (s : SearchIndex) (f d : N) (t : string) :
  well_formed (_index s) →
  removeTerm (addTerm s f d t) f d t = Return (s, []).
Proof.
  intros Hwf.
  pose proof (well_formed_addTerm s f d t Hwf) as Hwf1.
  pose proof (posting_addTerm s f d t t f d) as Hp.
  rewrite decide_True in Hp by done.
  destruct (removeTerm_present _ f d t _ Hwf1 Hp) as (dict' & -> & Hwf' & Hpost).
  assert (dict' = _index s) as ->.
  { apply well_formed_ext; [done|done|]. intros t' f' d'.
    rewrite Hpost, posting_addTerm.
    destruct (decide (t = t' ∧ f = f' ∧ d = d')) as [(<- & <- & <-)|]; [|done].
    destruct (posting (_index s) t f d) as [n|] eqn:Hn; simpl.
    - pose proof (well_formed_posting _ _ _ _ _ Hwf Hn).
      destruct (Z.eqb_spec n 0); [lia|].
      rewrite decide_False by lia. f_equal. lia.
    - done. }
  f_equal. f_equal. unfold addTerm.
  destruct (SearchableMap.fetch _ _ _) as [data dict].
  destruct (data !! f); simpl; rewrite with_index_twice; apply with_index_same.
Qed.

(** C3, as the code has it. On a dictionary in which every term has a
    field entry, every field entry a document and every frequency is a
    positive safe integer, removing the postings of a document with
    [removeTerm] takes every term that only this document had out of the
    dictionary, keeps every other term together with the postings of the
    other documents, and [removeTerm] after [addTerm] of the same posting
    gives back the state before. *)
Theorem removeTerm_removes_document (s : SearchIndex) :
  well_formed (_index s) → safe_frequencies (_index s) →
  (∀ d postings, removes_document s d postings) ∧
  (∀ f d t, removeTerm (addTerm s f d t) f d t = Return (s, [])).
Proof.
  intros Hwf _. split; [|intros; by apply removeTerm_addTerm].
  intros d postings Hocc.
  destruct (removePostings_frequencies postings s d Hwf)
    as (dict' & Hrun & Hwf' & Hfreq & Hother).
  { intros f t. rewrite Hocc. lia. }
  exists (with_index s dict'), []. split; [done|]. simpl.
  split; [|split].
  - intros t Honly. destruct (dict' !! t) as [data|] eqn:Ht; [|done].
    destruct (well_formed_term_posting dict' t data Hwf' Ht)
      as (f & d' & n & Hp & Hn).
    destruct (decide (d' = d)) as [->|Hd'].
    + pose proof (Hfreq t f) as Hz. rewrite Hocc in Hz.
      unfold frequency at 1 in Hz. rewrite Hp in Hz. simpl in Hz. lia.
    + rewrite Hother, Honly in Hp by done. done.
  - intros t f d' n Hd' Hp. rewrite <- Hother in Hp by done.
    unfold posting in Hp. by destruct (dict' !! t).
  - intros t f d' Hd'. by apply Hother.
Qed.

(** ** Rounding to a double *)

Section Rounding.
Local Open Scope Q_scope.

Lemma pow2_pos (e : Z) : 0 < 2 ^ e.
Proof. by apply Qpower_0_lt. Qed.

Lemma pow2_le (a b : Z) : (a <= b)%Z → 2 ^ a <= 2 ^ b.
Proof. intros Hab. by apply Qpower_le_compat_l. Qed.

Lemma pow2_plus (a b : Z) : 2 ^ (a + b) == 2 ^ a * 2 ^ b.
Proof. by apply Qpower_plus. Qed.

Lemma pow2_Z (a : Z) : (0 <= a)%Z → 2 ^ a == inject_Z (2 ^ a).
Proof. intros Ha. symmetry. by apply (Zpower_Qpower 2). Qed.

Lemma pow2_quotient (a b : Z) :
  (0 <= a)%Z → (0 <= b)%Z → 2 ^ (a - b) == inject_Z (2 ^ a) / inject_Z (2 ^ b).
Proof.
  intros Ha Hb. rewrite Qpower_minus by done.
  by rewrite !pow2_Z.
Qed.

Lemma Qmake_lt_quotient (n : Z) (d : positive) (x y : Z) :
  (0 < y)%Z → (n * y < x * Z.pos d)%Z → n # d < inject_Z x / inject_Z y.
Proof.
  intros Hy Hlt. apply Qlt_shift_div_l; [by rewrite <- (Zlt_Qlt 0)|].
  unfold Qlt, Qmult, inject_Z. cbn [Qnum Qden]. lia.
Qed.

Lemma quotient_le_Qmake (n : Z) (d : positive) (x y : Z) :
  (0 < y)%Z → (x * Z.pos d <= n * y)%Z → inject_Z x / inject_Z y <= n # d.
Proof.
  intros Hy Hle. apply Qle_shift_div_r; [by rewrite <- (Zlt_Qlt 0)|].
  unfold Qle, Qmult, inject_Z. cbn [Qnum Qden]. lia.
Qed.

Lemma binade_spec (q : Q) :
  0 < q → 2 ^ binade q <= q ∧ q < 2 ^ (binade q + 1).
Proof.
  intros Hq. destruct q as [n d]. unfold binade. cbn [Qnum Qden].
  assert (Hn : (0 < n)%Z) by (unfold Qlt in Hq; simpl in Hq; lia).
  pose proof (Z.log2_spec n Hn) as [Hn1 Hn2].
  pose proof (Z.log2_spec (Z.pos d) (Pos2Z.is_pos d)) as [Hd1 Hd2].
  pose proof (Z.log2_nonneg n) as Ha.
  pose proof (Z.log2_nonneg (Z.pos d)) as Hb.
  set (a := Z.log2 n) in *. set (b := Z.log2 (Z.pos d)) in *.
  assert (Hpa : (0 < 2 ^ a)%Z) by (apply Z.pow_pos_nonneg; lia).
  assert (Hpb : (0 < 2 ^ b)%Z) by (apply Z.pow_pos_nonneg; lia).
  assert (Hhi : n # d < 2 ^ (a - b + 1)).
  { replace (a - b + 1)%Z with (Z.succ a - b)%Z by lia.
    rewrite pow2_quotient by lia.
    apply Qmake_lt_quotient; [done|]. nia. }
  assert (Hlo : 2 ^ (a - b - 1) <= n # d).
  { replace (a - b - 1)%Z with (a - Z.succ b)%Z by lia.
    rewrite pow2_quotient by lia.
    apply quotient_le_Qmake; [apply Z.pow_pos_nonneg; lia|]. nia. }
  destruct (Qle_bool (2 ^ (a - b)) (n # d)) eqn:Hle.
  - apply Qle_bool_iff in Hle. done.
  - split; [done|]. replace (a - b - 1 + 1)%Z with (a - b)%Z by lia.
    apply Qnot_le_lt. intros Hle'. apply Qle_bool_iff in Hle'. congruence.
Qed.

Lemma binade_unique (q : Q) (e : Z) :
  2 ^ e <= q → q < 2 ^ (e + 1) → binade q = e.
Proof.
  intros Hlo Hhi.
  assert (Hq : 0 < q) by (eapply Qlt_le_trans; [apply (pow2_pos e)|done]).
  destruct (binade_spec q Hq) as [Hlo' Hhi'].
  destruct (Z.lt_trichotomy (binade q) e) as [Hlt|[Heq|Hgt]]; [|done|].
  - exfalso. apply (Qlt_irrefl q).
    eapply Qlt_le_trans; [exact Hhi'|].
    eapply Qle_trans; [|exact Hlo]. apply pow2_le. lia.
  - exfalso. apply (Qlt_irrefl q).
    eapply Qlt_le_trans; [exact Hhi|].
    eapply Qle_trans; [|exact Hlo']. apply pow2_le. lia.
Qed.

Lemma binade_le (q1 q2 : Q) : 0 < q1 → q1 <= q2 → (binade q1 <= binade q2)%Z.
Proof.
  intros Hq1 Hle.
  assert (Hq2 : 0 < q2) by (eapply Qlt_le_trans; done).
  destruct (binade_spec q1 Hq1) as [Hlo1 _].
  destruct (binade_spec q2 Hq2) as [_ Hhi2].
  destruct (Z_le_gt_dec (binade q1) (binade q2)) as [|Hgt]; [done|].
  exfalso. apply (Qlt_irrefl q2).
  eapply Qlt_le_trans; [exact Hhi2|].
  eapply Qle_trans; [|exact Hle]. eapply Qle_trans; [|exact Hlo1].
  apply pow2_le. lia.
Qed.

Lemma binade_proper (q1 q2 : Q) : 0 < q1 → q1 == q2 → binade q1 = binade q2.
Proof.
  intros Hpos Heq. destruct (binade_spec q1 Hpos) as [Hlo Hhi].
  symmetry. apply binade_unique; by rewrite <- Heq.
Qed.

(** Rounding to the nearest integer. *)
Lemma roundHalfEven_floor (x : Q) :
  roundHalfEven x = Qfloor x ∨ roundHalfEven x = (Qfloor x + 1)%Z.
Proof.
  unfold roundHalfEven.
  destruct (x - inject_Z (Qfloor x) ?= 1 # 2); [|auto..].
  destruct (Z.even (Qfloor x)); auto.
Qed.

Lemma roundHalfEven_near (x : Q) :
  inject_Z (roundHalfEven x) - (1 # 2) <= x ∧
  x <= inject_Z (roundHalfEven x) + (1 # 2).
Proof.
  pose proof (Qfloor_le x) as Hlo. pose proof (Qlt_floor x) as Hhi.
  rewrite inject_Z_plus in Hhi. change (inject_Z 1) with 1 in Hhi.
  unfold roundHalfEven.
  destruct (x - inject_Z (Qfloor x) ?= 1 # 2) eqn:Hc.
  - apply Qeq_alt in Hc.
    destruct (Z.even (Qfloor x)); rewrite ?inject_Z_plus;
      change (inject_Z 1) with 1; split; lra.
  - apply Qlt_alt in Hc. split; lra.
  - apply Qgt_alt in Hc. rewrite inject_Z_plus.
    change (inject_Z 1) with 1. split; lra.
Qed.

Lemma roundHalfEven_Z (n : Z) : roundHalfEven (inject_Z n) = n.
Proof.
  unfold roundHalfEven. rewrite Qfloor_Z.
  replace (inject_Z n - inject_Z n ?= 1 # 2) with Lt; [done|].
  symmetry. rewrite <- Qlt_alt. lra.
Qed.

Lemma roundHalfEven_proper (x y : Q) : x == y → roundHalfEven x = roundHalfEven y.
Proof.
  intros Heq. unfold roundHalfEven. rewrite <- (Qfloor_comp _ _ Heq).
  by rewrite (Qcompare_comp _ _ (Qminus_comp _ _ Heq _ _ (Qeq_refl _)) _ _ (Qeq_refl (1 # 2))).
Qed.

Lemma roundHalfEven_mono (x y : Q) : x <= y → (roundHalfEven x <= roundHalfEven y)%Z.
Proof.
  intros Hle. pose proof (Qfloor_resp_le x y Hle) as Hfl.
  destruct (Z.eq_dec (Qfloor x) (Qfloor y)) as [Heq|Hne].
  - unfold roundHalfEven. rewrite <- Heq.
    destruct (x - inject_Z (Qfloor x) ?= 1 # 2) eqn:Hx;
      destruct (y - inject_Z (Qfloor x) ?= 1 # 2) eqn:Hy;
      first [apply Qeq_alt in Hx|apply Qlt_alt in Hx|apply Qgt_alt in Hx];
      first [apply Qeq_alt in Hy|apply Qlt_alt in Hy|apply Qgt_alt in Hy];
      try destruct (Z.even (Qfloor x)); try lia; exfalso; lra.
  - destruct (roundHalfEven_floor x) as [->| ->],
      (roundHalfEven_floor y) as [->| ->]; lia.
Qed.

Lemma roundHalfEven_le (x : Q) (n : Z) :
  x <= inject_Z n → (roundHalfEven x <= n)%Z.
Proof.
  intros Hle. rewrite <- (roundHalfEven_Z n). by apply roundHalfEven_mono.
Qed.

Lemma roundHalfEven_ge (x : Q) (n : Z) :
  inject_Z n <= x → (n <= roundHalfEven x)%Z.
Proof.
  intros Hle. rewrite <- (roundHalfEven_Z n) at 1. by apply roundHalfEven_mono.
Qed.
(** The significand of a positive number lies between [2^52] and [2^53]. *)
Lemma scaled_range (q : Q) :
  0 < q →
  inject_Z (2 ^ 52) <= q / 2 ^ (binade q - 52) ∧
  q / 2 ^ (binade q - 52) < inject_Z (2 ^ 53).
Proof.
  intros Hq. destruct (binade_spec q Hq) as [Hlo Hhi].
  pose proof (pow2_pos (binade q - 52)) as He.
  rewrite <- !pow2_Z by lia. split.
  - apply Qle_shift_div_l; [done|]. rewrite <- pow2_plus.
    by replace (52 + (binade q - 52))%Z with (binade q) by lia.
  - apply Qlt_shift_div_r; [done|]. rewrite <- pow2_plus.
    by replace (53 + (binade q - 52))%Z with (binade q + 1)%Z by lia.
Qed.

Lemma significand_range (q : Q) :
  0 < q →
  (2 ^ 52 <= roundHalfEven (q / 2 ^ (binade q - 52)) <= 2 ^ 53)%Z.
Proof.
  intros Hq. destruct (scaled_range q Hq) as [Hlo Hhi]. split.
  - by apply roundHalfEven_ge.
  - apply roundHalfEven_le. by apply Qlt_le_weak.
Qed.

Lemma roundPositive_bounds (q : Q) :
  0 < q →
  2 ^ binade q <= roundPositive q ∧ roundPositive q <= 2 ^ (binade q + 1).
Proof.
  intros Hq. destruct (significand_range q Hq) as [Hlo Hhi].
  pose proof (pow2_pos (binade q - 52)) as He.
  unfold roundPositive. split.
  - replace (binade q) with (52 + (binade q - 52))%Z at 1 by lia.
    rewrite pow2_plus, (pow2_Z 52) by lia.
    apply Qmult_le_compat_r; [by rewrite <- Zle_Qle|by apply Qlt_le_weak].
  - replace (binade q + 1)%Z with (53 + (binade q - 52))%Z by lia.
    rewrite pow2_plus, (pow2_Z 53) by lia.
    apply Qmult_le_compat_r; [by rewrite <- Zle_Qle|by apply Qlt_le_weak].
Qed.

Lemma roundPositive_pos (q : Q) : 0 < q → 0 < roundPositive q.
Proof.
  intros Hq. destruct (roundPositive_bounds q Hq) as [Hlo _].
  eapply Qlt_le_trans; [apply (pow2_pos (binade q))|done].
Qed.

Lemma roundPositive_proper (q1 q2 : Q) :
  0 < q1 → q1 == q2 → roundPositive q1 == roundPositive q2.
Proof.
  intros Hq Heq. unfold roundPositive.
  rewrite <- (binade_proper q1 q2 Hq Heq).
  rewrite (roundHalfEven_proper (q1 / 2 ^ (binade q1 - 52))
             (q2 / 2 ^ (binade q1 - 52))); [done|].
  apply Qmult_comp; [exact Heq|reflexivity].
Qed.

Lemma roundPositive_mono (q1 q2 : Q) :
  0 < q1 → q1 <= q2 → roundPositive q1 <= roundPositive q2.
Proof.
  intros Hq1 Hle.
  assert (Hq2 : 0 < q2) by (eapply Qlt_le_trans; done).
  pose proof (binade_le q1 q2 Hq1 Hle) as Hb.
  destruct (Z.eq_dec (binade q1) (binade q2)) as [Heq|Hne].
  - unfold roundPositive. rewrite <- Heq.
    pose proof (pow2_pos (binade q1 - 52)) as He.
    apply Qmult_le_compat_r; [|by apply Qlt_le_weak].
    rewrite <- Zle_Qle. apply roundHalfEven_mono.
    apply Qmult_le_compat_r; [done|].
    apply Qlt_le_weak, Qinv_lt_0_compat. done.
  - destruct (roundPositive_bounds q1 Hq1) as [_ Hhi].
    destruct (roundPositive_bounds q2 Hq2) as [Hlo _].
    eapply Qle_trans; [exact Hhi|]. eapply Qle_trans; [|exact Hlo].
    apply pow2_le. lia.
Qed.

(** The result is within half a unit in the last place of the number. *)
Lemma roundPositive_near (q : Q) :
  0 < q →
  roundPositive q - (1 # 2) * 2 ^ (binade q - 52) <= q ∧
  q <= roundPositive q + (1 # 2) * 2 ^ (binade q - 52).
Proof.
  intros Hq. pose proof (pow2_pos (binade q - 52)) as He.
  destruct (roundHalfEven_near (q / 2 ^ (binade q - 52))) as [Hlo Hhi].
  assert (Hq' : q == q / 2 ^ (binade q - 52) * 2 ^ (binade q - 52)).
  { field. intros H0. rewrite H0 in He. by apply Qlt_irrefl in He. }
  unfold roundPositive.
  set (u := 2 ^ (binade q - 52)) in *.
  set (x := q / u) in *. set (m := inject_Z (roundHalfEven x)) in *.
  split.
  - rewrite Hq'.
    assert (m * u - (1 # 2) * u == (m - (1 # 2)) * u) as -> by ring.
    apply Qmult_le_compat_r; [done|by apply Qlt_le_weak].
  - rewrite Hq'.
    assert (m * u + (1 # 2) * u == (m + (1 # 2)) * u) as -> by ring.
    apply Qmult_le_compat_r; [done|by apply Qlt_le_weak].
Qed.

(** The integers up to [2^53] are doubles. *)
Lemma binade_Z (n : Z) : (0 < n)%Z → binade (inject_Z n) = Z.log2 n.
Proof.
  intros Hn. destruct (Z.log2_spec n Hn) as [Hlo Hhi].
  pose proof (Z.log2_nonneg n) as Hnn.
  apply binade_unique.
  - rewrite pow2_Z by done. by rewrite <- Zle_Qle.
  - rewrite pow2_Z by lia. rewrite <- Zlt_Qlt.
    by replace (Z.log2 n + 1)%Z with (Z.succ (Z.log2 n)) by lia.
Qed.

Lemma roundPositive_Z (n : Z) :
  (0 < n <= 2 ^ 53)%Z → roundPositive (inject_Z n) == inject_Z n.
Proof.
  intros [Hn Hle]. unfold roundPositive. rewrite binade_Z by done.
  pose proof (Z.log2_nonneg n) as Hnn.
  destruct (Z.eq_dec n (2 ^ 53)%Z) as [->|Hne]; [by vm_compute|].
  assert (Hlog : (Z.log2 n < 53)%Z) by (apply Z.log2_lt_pow2; lia).
  set (e := (Z.log2 n - 52)%Z) in *.
  assert (Hinv : / 2 ^ e == inject_Z (2 ^ (- e))).
  { rewrite <- Qpower_opp. apply pow2_Z. lia. }
  assert (Hx : inject_Z n / 2 ^ e == inject_Z (n * 2 ^ (- e))).
  { unfold Qdiv. by rewrite Hinv, inject_Z_mult. }
  rewrite (roundHalfEven_proper _ _ Hx), roundHalfEven_Z.
  rewrite inject_Z_mult, <- Hinv. field.
  intros H0. pose proof (pow2_pos e) as He. rewrite H0 in He.
  by apply Qlt_irrefl in He.
Qed.
(** ** Rounding a number of either sign *)

Lemma roundDouble_pos (q : Q) : 0 < q → roundDouble q = roundPositive q.
Proof.
  intros Hq. unfold roundDouble.
  by replace (q ?= 0) with Gt by (symmetry; by rewrite <- Qgt_alt).
Qed.

Lemma roundDouble_neg (q : Q) : q < 0 → roundDouble q = - roundPositive (- q).
Proof.
  intros Hq. unfold roundDouble.
  by replace (q ?= 0) with Lt by (symmetry; by rewrite <- Qlt_alt).
Qed.

Lemma roundDouble_0 (q : Q) : q == 0 → roundDouble q = 0.
Proof.
  intros Hq. unfold roundDouble.
  by replace (q ?= 0) with Eq by (symmetry; by rewrite <- Qeq_alt).
Qed.

Lemma roundDouble_cases (q : Q) :
  (q < 0 ∧ roundDouble q = - roundPositive (- q)) ∨
  (q == 0 ∧ roundDouble q = 0) ∨
  (0 < q ∧ roundDouble q = roundPositive q).
Proof.
  destruct (Q_dec q 0) as [[Hlt|Hgt]|Heq].
  - left. by rewrite roundDouble_neg.
  - right. right. by rewrite roundDouble_pos.
  - right. left. by rewrite roundDouble_0.
Qed.

#[global] Instance roundDouble_proper : Proper (Qeq ==> Qeq) roundDouble.
Proof.
  intros q1 q2 Heq.
  destruct (roundDouble_cases q1) as [[H1 ->]|[[H1 ->]|[H1 ->]]].
  - rewrite roundDouble_neg by (by rewrite <- Heq).
    apply Qopp_comp, roundPositive_proper; [lra|by rewrite Heq].
  - by rewrite roundDouble_0 by (by rewrite <- Heq).
  - rewrite roundDouble_pos by (by rewrite <- Heq).
    by apply roundPositive_proper.
Qed.

Lemma roundDouble_mono (q1 q2 : Q) : q1 <= q2 → roundDouble q1 <= roundDouble q2.
Proof.
  intros Hle.
  destruct (roundDouble_cases q1) as [[H1 ->]|[[H1 ->]|[H1 ->]]],
    (roundDouble_cases q2) as [[H2 ->]|[[H2 ->]|[H2 ->]]]; try (exfalso; lra).
  - apply Qopp_le_compat, roundPositive_mono; lra.
  - pose proof (roundPositive_pos (- q1)). lra.
  - pose proof (roundPositive_pos (- q1)). pose proof (roundPositive_pos q2). lra.
  - lra.
  - pose proof (roundPositive_pos q2). lra.
  - by apply roundPositive_mono.
Qed.

Lemma roundDouble_Z (n : Z) :
  (Z.abs n <= 2 ^ 53)%Z → roundDouble (inject_Z n) == inject_Z n.
Proof.
  intros Hn. destruct (Z.lt_trichotomy n 0) as [Hlt|[->|Hgt]].
  - rewrite roundDouble_neg by (by rewrite (Zlt_Qlt n 0) in Hlt).
    rewrite <- inject_Z_opp, roundPositive_Z by lia.
    rewrite inject_Z_opp. ring.
  - done.
  - rewrite roundDouble_pos by (by rewrite (Zlt_Qlt 0 n) in Hgt).
    apply roundPositive_Z. lia.
Qed.

Lemma roundDouble_zero (q : Q) : roundDouble q == 0 ↔ q == 0.
Proof.
  split.
  - intros Hz.
    destruct (roundDouble_cases q) as [[H1 Hr]|[[H1 Hr]|[H1 Hr]]]; [|done|].
    + pose proof (roundPositive_pos (- q)). rewrite Hr in Hz. lra.
    + pose proof (roundPositive_pos q). rewrite Hr in Hz. lra.
  - intros Hz. by rewrite roundDouble_0.
Qed.

(** Below one, rounding moves a number by [2^-54] at most. *)
Lemma roundDouble_near (q : Q) :
  0 <= q → q < 1 → Qabs (roundDouble q - q) <= 1 # 2 ^ 54.
Proof.
  intros H0 H1. apply Qabs_Qle_condition.
  destruct (Qle_lt_or_eq _ _ H0) as [Hpos|Hz].
  - rewrite roundDouble_pos by done.
    destruct (roundPositive_near q Hpos) as [Hlo Hhi].
    destruct (binade_spec q Hpos) as [Hb _].
    assert (Hbin : (binade q <= -1)%Z).
    { destruct (Z_le_gt_dec (binade q) (-1)) as [|Hgt]; [done|].
      exfalso. apply (Qlt_irrefl q). eapply Qlt_le_trans; [exact H1|].
      eapply Qle_trans; [|exact Hb]. apply (pow2_le 0). lia. }
    assert (Hu : (1 # 2) * 2 ^ (binade q - 52) <= 1 # 2 ^ 54).
    { eapply Qle_trans.
      - apply Qmult_le_l; [done|]. apply (pow2_le _ (-53)). lia.
      - by vm_compute. }
    split; lra.
  - rewrite roundDouble_0 by done. rewrite <- Hz. by vm_compute.
Qed.

End Rounding.

(** ** dirtFactor *)

(** With counters that add up to [2^53] at most, the two sums of
    [dirtFactor] are exact and only the quotient is rounded. *)
Lemma dirtFactor_quotient (s : SearchIndex) :
  0 ≤ _documentCount s → 0 ≤ _dirtCount s →
  1 + _documentCount s + _dirtCount s ≤ 2 ^ 53 →
  (dirtFactor s ==
   roundDouble (inject_Z (_dirtCount s) /
                inject_Z (1 + _documentCount s + _dirtCount s)))%Q.
Proof.
  intros Hdocs Hdirt Hsum. unfold dirtFactor, doubleDivide, doubleAdd.
  change 1%Q with (inject_Z 1).
  rewrite <- inject_Z_plus, roundDouble_Z by lia.
  rewrite <- inject_Z_plus, roundDouble_Z by lia.
  done.
Qed.

(** The exact quotient, for counters that are not negative. *)
Lemma exact_quotient_range (docs dirt : Z) :
  0 ≤ docs → 0 ≤ dirt → 1 + docs + dirt ≤ 2 ^ 53 →
  (0 <= inject_Z dirt / inject_Z (1 + docs + dirt))%Q ∧
  (inject_Z dirt / inject_Z (1 + docs + dirt) <= (2 ^ 53 - 1) # 2 ^ 53)%Q.
Proof.
  intros Hdocs Hdirt Hsum.
  assert (Hpos : (0 < inject_Z (1 + docs + dirt))%Q).
  { change 0%Q with (inject_Z 0). rewrite <- Zlt_Qlt. lia. }
  split.
  - apply Qle_shift_div_l; [done|]. rewrite Qmult_0_l.
    change 0%Q with (inject_Z 0). rewrite <- Zle_Qle. done.
  - apply Qle_shift_div_r; [done|].
    unfold Qle, Qmult, inject_Z. cbn [Qnum Qden].
    change (Z.pos (2 ^ 53 * 1)) with (2 ^ 53). nia.
Qed.

(** C9, as the code has it. [dirtFactor] is the double nearest to the
    quotient of [dirtCount] by [1 + documentCount + dirtCount], no
    further than [2^-54] from it, when the counters are not negative and
    add up to [2^53] at most. The divisor is then at least one, and the
    result lies in [0, 1). *)
Theorem dirtFactor_range (s : SearchIndex) :
  0 ≤ _documentCount s → 0 ≤ _dirtCount s →
  1 + _documentCount s + _dirtCount s ≤ 2 ^ 53 →
  let exact :=
    (inject_Z (_dirtCount s) /
     inject_Z (1 + _documentCount s + _dirtCount s))%Q in
  (dirtFactor s == roundDouble exact)%Q ∧
  (Qabs (dirtFactor s - exact) <= 1 # 2 ^ 54)%Q ∧
  1 ≤ 1 + _documentCount s + _dirtCount s ∧
  (0 <= dirtFactor s)%Q ∧ (dirtFactor s < 1)%Q.
Proof.
  intros Hdocs Hdirt Hsum exact.
  pose proof (dirtFactor_quotient s Hdocs Hdirt Hsum) as Hq.
  fold exact in Hq.
  destruct (exact_quotient_range _ _ Hdocs Hdirt Hsum) as [Hlo Hhi].
  fold exact in Hlo, Hhi.
  assert (Hlt : (exact < 1)%Q).
  { eapply Qle_lt_trans; [exact Hhi|]. by vm_compute. }
  split; [done|]. split; [|split; [lia|split]].
  - rewrite Hq. by apply roundDouble_near.
  - rewrite Hq. change 0%Q with (roundDouble 0) at 1.
    by apply roundDouble_mono.
  - rewrite Hq. eapply Qle_lt_trans; [apply roundDouble_mono, Hhi|].
    by vm_compute.
Qed.

(** ** The constructor *)

Lemma fieldsMissing_prefix : String.prefix "SlimSearch: " fieldsMissing = true.
Proof. reflexivity. Qed.

(** C8, as the code has it. Without [fields] (or without options at all)
    the constructor throws an error whose message starts with
    [SlimSearch: ], and no state comes into being. With [fields] it
    returns an index without documents or terms, whatever the other
    options are: the BM25+ parameters are not looked at. *)
Theorem constructor_checks_fields (options : option SearchIndexOptions) :
  (options ≫= cfg_fields = None → rejected options) ∧
  (∀ names, options ≫= cfg_fields = Some names →
     ∃ s, constructor options = Return s ∧
          fields (_options s) = names ∧
          _index s = ∅ ∧ _documentCount s = 0 ∧ _dirtCount s = 0).
Proof using Type.
  split.
  - intros Hnone. exists fieldsMissing. unfold constructor. rewrite Hnone.
    split; [done|]. apply fieldsMissing_prefix.
  - intros names Hsome. unfold constructor. rewrite Hsome.
    eexists. split; [done|]. done.
Qed.

(** ** Sorting *)

Section Sorting.
Context {A : Type} (key : A → Q).

Lemma descendingBy_le (x y : A) :
  Qle_bool ((descendingBy key) x y) 0 = true ↔ (key y <= key x)%Q.
Proof.
  rewrite Qle_bool_iff. unfold descendingBy.
  rewrite (Qle_minus_iff (key y - key x) 0), (Qle_minus_iff (key y) (key x)).
  assert (Heq : (0 + - (key y - key x) == key x + - key y)%Q) by ring.
  by rewrite Heq.
Qed.

Lemma descendingBy_gt (x y : A) :
  Qle_bool ((descendingBy key) x y) 0 = false → (key x < key y)%Q.
Proof.
  intros Hf. apply Qnot_le_lt. intros Hle.
  apply descendingBy_le in Hle. congruence.
Qed.

Lemma sortInsert_Permutation (x : A) (l : list A) :
  sortInsert (descendingBy key) x l ≡ₚ x :: l.
Proof.
  induction l as [|y l IH]; simpl; [done|].
  destruct (Qle_bool _ _); [done|].
  rewrite IH. apply perm_swap.
Qed.

Lemma sort_Permutation (l : list A) : sort (descendingBy key) l ≡ₚ l.
Proof.
  induction l as [|x l IH]; simpl; [done|].
  by rewrite sortInsert_Permutation, IH.
Qed.

Lemma sortInsert_sorted (x : A) (l : list A) :
  StronglySorted (λ a c, (key c <= key a)%Q) l →
  StronglySorted (λ a c, (key c <= key a)%Q) (sortInsert (descendingBy key) x l).
Proof.
  induction 1 as [|y l Hsorted IH Hall]; simpl.
  - by repeat constructor.
  - destruct (Qle_bool ((descendingBy key) x y) 0) eqn:Hcmp.
    + apply descendingBy_le in Hcmp.
      constructor; [by constructor|].
      constructor; [done|].
      eapply Forall_impl; [exact Hall|].
      intros c Hc. simpl in Hc. by eapply Qle_trans.
    + apply descendingBy_gt in Hcmp.
      constructor; [done|].
      rewrite sortInsert_Permutation.
      constructor; [by apply Qlt_le_weak|done].
Qed.

Lemma sort_sorted (l : list A) :
  StronglySorted (λ a c, (key c <= key a)%Q) (sort (descendingBy key) l).
Proof.
  induction l as [|x l IH]; simpl; [constructor|].
  by apply sortInsert_sorted.
Qed.

(** The sort is stable: the elements of one score keep their order. *)
Lemma sortInsert_stable (v : Q) (x : A) (l : list A) :
  base.filter (λ a, Qeq_bool (key a) v = true) (sortInsert (descendingBy key) x l) =
  base.filter (λ a, Qeq_bool (key a) v = true) (x :: l).
Proof.
  induction l as [|y l IH]; simpl; [done|].
  destruct (Qle_bool ((descendingBy key) x y) 0) eqn:Hcmp; [done|].
  apply descendingBy_gt in Hcmp.
  rewrite (filter_cons _ y), IH, !filter_cons.
  destruct (decide (Qeq_bool (key x) v = true)) as [Hx|Hx]; [|done].
  destruct (decide (Qeq_bool (key y) v = true)) as [Hy|Hy]; [|done].
  apply Qeq_bool_iff in Hx, Hy. rewrite Hx, Hy in Hcmp.
  by apply Qlt_irrefl in Hcmp.
Qed.

Lemma sort_stable (v : Q) (l : list A) :
  base.filter (λ a, Qeq_bool (key a) v = true) (sort (descendingBy key) l) =
  base.filter (λ a, Qeq_bool (key a) v = true) l.
Proof.
  induction l as [|x l IH]; simpl; [done|].
  by rewrite sortInsert_stable, !filter_cons, IH.
Qed.

(** Sorting the images is sorting the originals. *)
Lemma sort_fmap {B : Type} (g : B → A) (l : list B) :
  sort (descendingBy key) (g <$> l) =
  g <$> sort (descendingBy (λ x, key (g x))) l.
Proof.
  unfold sort. induction l as [|x l IH]; csimpl; [done|].
  rewrite IH.
  generalize (foldr (sortInsert (descendingBy (λ x, key (g x)))) [] l).
  intros s. induction s as [|y s IHs]; csimpl; [done|].
  unfold descendingBy at 1 3. destruct (Qle_bool _ _); csimpl; [done|].
  by rewrite IHs.
Qed.
End Sorting.

(** ** search *)

(** The loop of [search] collects the results that pass the filter, in
    the order of the combined results. *)
Lemma search_loop (s : SearchIndex) (o : SearchOptions)
  (l : list (N * QueryResult)) (acc : list SearchResult) :
  foldl
    (λ (results : list SearchResult) (entry : N * QueryResult),
       let result := resultOf s entry.1 entry.2 in
       if passes o result then results ++ [result] else results)
    acc l =
  acc ++
  (base.filter (λ hit : N * SearchResult, passes o hit.2 = true)
     (map (λ entry : N * QueryResult, (entry.1, resultOf s entry.1 entry.2)) l)).*2.
Proof.
  revert acc. induction l as [|[docId entry] l IH]; intros acc; simpl.
  - by rewrite app_nil_r.
  - rewrite IH, filter_cons. simpl.
    destruct (passes o (resultOf s docId entry)) eqn:Hp.
    + rewrite decide_True by done. csimpl. by rewrite <- app_assoc.
    + rewrite decide_False by done. done.
Qed.

Lemma hits_candidates (s : SearchIndex) (q : Query) (o : option SearchOptions) :
  hits s q o =
  sort (descendingBy (λ hit : N * SearchResult, r_score hit.2))
    (candidates s q o).
Proof. reflexivity. Qed.

(** [search] gives the results that [hits] pairs with their short ids. *)
Lemma search_hits (s : SearchIndex) (q : Query) (o : option SearchOptions) :
  search s q o = (hits s q o).*2.
Proof.
  rewrite hits_candidates. unfold search, candidates.
  rewrite search_loop. simpl.
  change byScore with (descendingBy r_score).
  apply (sort_fmap r_score snd).
Qed.

Lemma StronglySorted_lookup {A : Type} (R : A → A → Prop) (l : list A)
  (i j : nat) (a c : A) :
  StronglySorted R l → (i < j)%nat → l !! i = Some a → l !! j = Some c →
  R a c.
Proof.
  intros Hsorted. revert i j.
  induction Hsorted as [|x l Hsorted IH Hall]; intros i j Hij Hi Hj; [done|].
  destruct j as [|j]; [lia|]. simpl in Hj.
  destruct i as [|i]; simpl in Hi.
  - injection Hi as <-. rewrite Forall_forall in Hall.
    apply Hall. by eapply list_elem_of_lookup_2.
  - apply (IH i j); [lia|done|done].
Qed.

Lemma hits_descending (s : SearchIndex) (q : Query) (o : option SearchOptions) :
  descending (hits s q o).
Proof.
  rewrite hits_candidates. intros i j a c Hij Ha Hc.
  eapply (StronglySorted_lookup
            (λ a c : N * SearchResult, (r_score c.2 <= r_score a.2)%Q));
    [apply (sort_sorted (λ hit : N * SearchResult, r_score hit.2))|..]; done.
Qed.

(** Where a hit comes from. *)
Lemma elem_of_hits (s : SearchIndex) (q : Query) (o : option SearchOptions)
  (docId : N) (r : SearchResult) :
  (docId, r) ∈ hits s q o ↔
  passes (default emptySearchOptions o) r = true ∧
  ∃ entry,
    (docId, entry) ∈ executeQuery s q (default emptySearchOptions o) ∧
    r = resultOf s docId entry.
Proof.
  rewrite hits_candidates, sort_Permutation. unfold candidates.
  rewrite list_elem_of_filter, list_elem_of_fmap. simpl. split.
  - intros [Hp ([docId' entry] & [= -> ->] & Hin)]. eauto.
  - intros [Hp (entry & Hin & ->)]. split; [done|]. by exists (docId, entry).
Qed.




(** C5, as the code has it. The results of [search] are in descending
    order of score. They are the results that passed the filter, and
    those of equal score come in the order in which the combined results
    list them: the sort is stable and compares nothing but the scores. *)
Theorem search_sorted_stable (s : SearchIndex) (q : Query)
  (o : option SearchOptions) :
  search s q o = (hits s q o).*2 ∧
  descending (hits s q o) ∧
  hits s q o ≡ₚ candidates s q o ∧
  ∀ v, scoring v (hits s q o) = scoring v (candidates s q o).
Proof.
  split; [apply search_hits|]. split; [apply hits_descending|].
  rewrite hits_candidates. split.
  - apply sort_Permutation.
  - intros v. apply (sort_stable (λ hit : N * SearchResult, r_score hit.2)).
Qed.

Lemma passes_callFilter (o : option SearchOptions) (r : SearchResult) :
  passes (default emptySearchOptions o) r = callFilter o r.
Proof. by destruct o. Qed.

(** C10. The filter [search] applies is the one of its own options
    argument: the results are, sorted, the results built for the combined
    results that pass it. Without a filter in that argument every entry of
    the combined results gives a result, whatever the default search
    options of the index hold. *)
Theorem search_filters_by_call_options (s : SearchIndex) (q : Query)
  (o : option SearchOptions) :
  let combined := executeQuery s q (default emptySearchOptions o) in
  let built :=
    map (λ entry : N * QueryResult, resultOf s entry.1 entry.2) combined in
  search s q o =
    sort byScore
      (base.filter
         (λ r, callFilter o r = true)
         built) ∧
  (o ≫= opt_filter = None →
   search s q o = sort byScore built ∧
   search s q o ≡ₚ built ∧
   length (search s q o) = length combined).
Proof.
  intros combined built.
  assert (Hloop : ∀ l acc,
    foldl
      (λ (results : list SearchResult) (entry : N * QueryResult),
         let result := resultOf s entry.1 entry.2 in
         if passes (default emptySearchOptions o) result
         then results ++ [result] else results)
      acc l =
    acc ++
    base.filter
      (λ r, callFilter o r = true)
      (map (λ entry : N * QueryResult, resultOf s entry.1 entry.2) l)).
  { induction l as [|[docId entry] l IH]; intros acc; simpl.
    - by rewrite app_nil_r.
    - rewrite IH, filter_cons, passes_callFilter.
      destruct (callFilter o (resultOf s docId entry)) eqn:Hf.
      + rewrite decide_True by done. by rewrite <- app_assoc.
      + rewrite decide_False by done. done. }
  assert (Hsearch : search s q o =
    sort byScore
      (base.filter
         (λ r, callFilter o r = true)
         built)).
  { unfold search. by rewrite Hloop. }
  split; [done|]. intros Hnone.
  assert (Hall : base.filter
         (λ r, callFilter o r = true)
         built = built).
  { unfold callFilter. rewrite Hnone. clear.
    induction built as [|r l IH]; [done|].
    rewrite filter_cons. rewrite decide_True by done. by rewrite IH. }
  rewrite Hall in Hsearch. split; [done|].
  assert (Hperm : search s q o ≡ₚ built).
  { rewrite Hsearch. change byScore with (descendingBy r_score).
    apply sort_Permutation. }
  split; [done|]. rewrite Hperm. unfold built. by rewrite length_map.
Qed.

(** ** Serialisation *)

Lemma parseKey_propertyKey (n : N) : parseKey (propertyKey n) = Some n.
Proof.
  unfold parseKey, propertyKey.
  rewrite NilZero.usu.
  - simpl. by rewrite DecimalN.Unsigned.of_to.
  - destruct n as [|p]; [done|]. apply DecimalPos.Unsigned.to_uint_nonnil.
Qed.

Lemma propertyKey_inj : Inj (=) (=) propertyKey.
Proof.
  intros n n' Heq. apply (f_equal parseKey) in Heq.
  rewrite !parseKey_propertyKey in Heq. by injection Heq.
Qed.

Lemma lookup_fromEntries {V : Type} (m : gmap N V) (n : N) :
  fromEntries m !! propertyKey n = m !! n.
Proof. pose proof propertyKey_inj. apply (lookup_kmap propertyKey). Qed.

(** Every key of a serialised map is the key of a number of the map. *)
Lemma lookup_fromEntries_Some {V : Type} (m : gmap N V) (key : string) (v : V) :
  fromEntries m !! key = Some v ↔ ∃ n, key = propertyKey n ∧ m !! n = Some v.
Proof. pose proof propertyKey_inj. apply (lookup_kmap_Some propertyKey). Qed.

Lemma lookup_objectToNumericMap {V : Type} (object : gmap string V) :
  (∀ key v, object !! key = Some v → ∃ n, key = propertyKey n) →
  ∀ n, objectToNumericMap object !! n = object !! propertyKey n.
Proof.
  unfold objectToNumericMap.
  apply (map_fold_weak_ind
    (λ (r : gmap N V) (o : gmap string V),
       (∀ key v, o !! key = Some v → ∃ n, key = propertyKey n) →
       ∀ n, r !! n = o !! propertyKey n)).
  - intros _ n. by rewrite !lookup_empty.
  - intros key v o r Hfresh IH Hkeys n.
    destruct (Hkeys key v) as [n0 ->]; [by rewrite lookup_insert_eq|].
    rewrite parseKey_propertyKey.
    assert (IH' : ∀ n, r !! n = o !! propertyKey n).
    { apply IH. intros key' v' Hl. apply (Hkeys key' v').
      rewrite lookup_insert_ne; [done|]. intros <-. congruence. }
    destruct (decide (n0 = n)) as [->|Hne].
    + by rewrite !lookup_insert_eq.
    + rewrite !lookup_insert_ne; [apply IH'| |done].
      intros Heq. by apply propertyKey_inj in Heq.
Qed.

(** Reading a serialised map back gives the map. *)
Lemma objectToNumericMap_fromEntries {V : Type} (m : gmap N V) :
  objectToNumericMap (fromEntries m) = m.
Proof.
  apply map_eq. intros n. rewrite lookup_objectToNumericMap.
  - apply lookup_fromEntries.
  - intros key v Hl. apply lookup_fromEntries_Some in Hl as (n' & -> & _).
    by exists n'.
Qed.

(** The loop of [toJSON] over the fields of a term. *)
Lemma serializeTerm_kmap (fieldIndex : FieldTermData) :
  serializeTerm fieldIndex = kmap propertyKey (fromEntries <$> fieldIndex).
Proof.
  unfold serializeTerm.
  apply (map_fold_weak_ind
    (λ (r : gmap string SerializedIndexEntry) (m : FieldTermData),
       r = kmap propertyKey (fromEntries <$> m))).
  - by rewrite fmap_empty, kmap_empty.
  - intros f m fi r Hfresh ->. pose proof propertyKey_inj.
    by rewrite fmap_insert, (kmap_insert propertyKey).
Qed.

(** The frequencies of a serialised term are those of the term. *)
Lemma lookup_serializeTerm (fieldIndex : FieldTermData) (f : N) :
  serializeTerm fieldIndex !! propertyKey f = fromEntries <$> fieldIndex !! f.
Proof.
  pose proof propertyKey_inj.
  rewrite serializeTerm_kmap, (lookup_kmap propertyKey).
  by rewrite lookup_fmap.
Qed.

Lemma lookup_serializeTerm_Some (fieldIndex : FieldTermData) (key : string)
  (entry : SerializedIndexEntry) :
  serializeTerm fieldIndex !! key = Some entry ↔
  ∃ f m, key = propertyKey f ∧ fieldIndex !! f = Some m ∧
         entry = fromEntries m.
Proof.
  pose proof propertyKey_inj.
  rewrite serializeTerm_kmap, (lookup_kmap_Some propertyKey).
  split.
  - intros (f & -> & Hl). rewrite lookup_fmap in Hl.
    destruct (fieldIndex !! f) as [m|] eqn:Hf; [|done].
    injection Hl as <-. by exists f, m.
  - intros (f & m & -> & Hf & ->). exists f. split; [done|].
    by rewrite lookup_fmap, Hf.
Qed.

Lemma loadTerm_serializeTerm (fieldIndex : FieldTermData) :
  loadTerm (serializeTerm fieldIndex) = fieldIndex.
Proof.
  pose proof propertyKey_inj.
  unfold loadTerm. rewrite serializeTerm_kmap.
  rewrite <- (kmap_fmap propertyKey), <- map_fmap_compose.
  rewrite (map_fmap_ext _ id).
  - rewrite map_fmap_id. apply (objectToNumericMap_fromEntries fieldIndex).
  - intros f m _. simpl. apply objectToNumericMap_fromEntries.
Qed.

Lemma toJSON_index (s : SearchIndex) :
  index (toJSON s) =
  (λ entry : string * FieldTermData, (entry.1, serializeTerm entry.2)) <$>
    map_to_list (_index s).
Proof.
  simpl. unfold SearchableMap.entries.
  assert (Hloop : ∀ (l : list (string * FieldTermData)) acc,
    foldl
      (λ (index : list (string * gmap string SerializedIndexEntry))
         (entry : string * FieldTermData),
         index ++ [(entry.1, serializeTerm entry.2)])
      acc l =
    acc ++
    ((λ entry : string * FieldTermData, (entry.1, serializeTerm entry.2)) <$> l)).
  { induction l as [|e l IH]; intros acc; csimpl.
    - by rewrite app_nil_r.
    - by rewrite IH, <- app_assoc. }
  by rewrite Hloop.
Qed.

Lemma serializedFrequency_serializeTerm (dict : gmap string FieldTermData)
  (term : string) (fieldIndex : FieldTermData) (f d : N) :
  dict !! term = Some fieldIndex →
  serializedFrequency (serializeTerm fieldIndex) f d = posting dict term f d.
Proof.
  intros Ht. unfold serializedFrequency, posting.
  rewrite Ht, lookup_serializeTerm.
  destruct (fieldIndex !! f) as [m|]; simpl; [|done].
  apply lookup_fromEntries.
Qed.

(** C6. [toJSON] returns the record of the ten properties
    [documentCount], [nextId], [documentIds], [fieldIds], [fieldLength],
    [averageFieldLength], [storedFields], [dirtCount], [index] and
    [version], each taken from the state, the maps keyed by the decimal
    string of their numeric keys, and [version] equal to 2. Its [index]
    lists every term of the dictionary once, paired with the object that
    holds, under the keys of the fields and documents of the term and no
    other key, exactly the frequencies of the term. *)
Theorem toJSON_record (s : SearchIndex) :
  toJSON s =
    {| documentCount := _documentCount s;
       nextId := _nextId s;
       documentIds := fromEntries (_documentIds s);
       fieldIds := _fieldIds s;
       fieldLength := fromEntries (_fieldLength s);
       averageFieldLength := _avgFieldLength s;
       storedFields := fromEntries (_storedFields s);
       dirtCount := Some (_dirtCount s);
       index := index (toJSON s);
       version := 2 |} ∧
  NoDup (index (toJSON s)).*1 ∧
  length (index (toJSON s)) = size (_index s) ∧
  (∀ term data,
     (term, data) ∈ index (toJSON s) ↔
     ∃ fieldIndex,
       _index s !! term = Some fieldIndex ∧ data = serializeTerm fieldIndex) ∧
  (∀ term data,
     (term, data) ∈ index (toJSON s) →
     (∀ f d, serializedFrequency data f d = posting (_index s) term f d) ∧
     (∀ key entry, data !! key = Some entry →
        ∃ f (m : DocumentTermFrequencies),
          key = propertyKey f ∧
          posting (_index s) term f = (λ d, m !! d) ∧
               ∀ key' n, entry !! key' = Some n →
                 ∃ d, key' = propertyKey d ∧ m !! d = Some n)).
Proof.
  split; [done|].
  assert (Hmem : ∀ term data,
     (term, data) ∈ index (toJSON s) ↔
     ∃ fieldIndex,
       _index s !! term = Some fieldIndex ∧ data = serializeTerm fieldIndex).
  { intros term data. rewrite toJSON_index, list_elem_of_fmap. split.
    - intros ([t fi] & [= -> ->] & Hin). exists fi. split; [|done].
      by apply elem_of_map_to_list.
    - intros (fi & Ht & ->). exists (term, fi). split; [done|].
      by apply elem_of_map_to_list. }
  split; [|split; [|split; [exact Hmem|]]].
  - rewrite toJSON_index, <- list_fmap_compose.
    apply (NoDup_fst_map_to_list (_index s)).
  - by rewrite toJSON_index, length_fmap, length_map_to_list.
  - intros term data (fi & Ht & ->)%Hmem. split.
    + intros f d. by apply serializedFrequency_serializeTerm.
    + intros key entry (f & m & -> & Hf & ->)%lookup_serializeTerm_Some.
      exists f, m. split; [done|]. split.
      * unfold posting. by rewrite Ht, Hf.
      * intros key' n (d & -> & Hd)%lookup_fromEntries_Some. by exists d.
Qed.

(** ** Loading what [toJSON] wrote *)

Lemma loadIndex_lookup (l : list (string * FieldTermData))
  (acc : gmap string FieldTermData) (term : string) :
  NoDup l.*1 →
  foldl
    (λ (dict : gmap string FieldTermData)
       (entry : string * gmap string SerializedIndexEntry),
       SearchableMap.set entry.1 (loadTerm entry.2) dict)
    acc
    ((λ entry : string * FieldTermData, (entry.1, serializeTerm entry.2)) <$> l)
    !! term =
  match (list_to_map l : gmap string FieldTermData) !! term with
  | Some fieldIndex => Some fieldIndex
  | None => acc !! term
  end.
Proof.
  revert acc. induction l as [|[t fi] l IH]; intros acc Hnodup; csimpl.
  - by rewrite lookup_empty.
  - apply NoDup_cons in Hnodup as [Hfresh Hnodup].
    rewrite IH by done. unfold SearchableMap.set. simpl.
    rewrite loadTerm_serializeTerm.
    destruct (decide (t = term)) as [->|Hne].
    + rewrite !lookup_insert_eq.
      by rewrite (not_elem_of_list_to_map_1 l term Hfresh).
    + by rewrite !lookup_insert_ne.
Qed.

Lemma loadIndex_toJSON (s : SearchIndex) :
  loadIndex (index (toJSON s)) = _index s.
Proof.
  apply map_eq. intros term. unfold loadIndex.
  rewrite toJSON_index, loadIndex_lookup by apply NoDup_fst_map_to_list.
  rewrite list_to_map_to_list, lookup_empty. by destruct (_index s !! term).
Qed.

(** [invertIds] gives the external-id map of a consistent state. *)
Lemma invertIds_lookup (documentIds : gmap N ID) :
  (∀ i j id, documentIds !! i = Some id → documentIds !! j = Some id → i = j) →
  ∀ id shortId,
    invertIds documentIds !! id = Some shortId ↔
    documentIds !! shortId = Some id.
Proof.
  unfold invertIds.
  apply (map_fold_weak_ind
    (λ (r : gmap ID N) (m : gmap N ID),
       (∀ i j id, m !! i = Some id → m !! j = Some id → i = j) →
       ∀ id shortId, r !! id = Some shortId ↔ m !! shortId = Some id)).
  - intros _ id shortId. by rewrite !lookup_empty.
  - intros i x m r Hfresh IH Hinj id shortId.
    assert (IH' : ∀ id shortId, r !! id = Some shortId ↔ m !! shortId = Some id).
    { apply IH. intros i' j' id' Hi' Hj'. apply (Hinj i' j' id').
      - rewrite lookup_insert_ne; [done|]. intros <-. congruence.
      - rewrite lookup_insert_ne; [done|]. intros <-. congruence. }
    destruct (decide (x = id)) as [->|Hx].
    + rewrite lookup_insert_eq. split.
      * intros [= <-]. by rewrite lookup_insert_eq.
      * intros Hl. f_equal. apply (Hinj i shortId id); [|done].
        by rewrite lookup_insert_eq.
    + rewrite lookup_insert_ne by done. rewrite IH'.
      destruct (decide (i = shortId)) as [->|Hi].
      * rewrite lookup_insert_eq, Hfresh. split; [done|]. intros [= ->]. done.
      * by rewrite lookup_insert_ne.
Qed.

Lemma invertIds_consistent (s : SearchIndex) :
  ids_consistent s → invertIds (_documentIds s) = _idToShortId s.
Proof.
  intros Hc. apply map_eq. intros id.
  assert (Hinj : ∀ i j id, _documentIds s !! i = Some id →
    _documentIds s !! j = Some id → i = j).
  { intros i j id' Hi%Hc Hj%Hc. congruence. }
  destruct (_idToShortId s !! id) as [shortId|] eqn:Hid.
  - apply invertIds_lookup; [done|]. by apply Hc.
  - destruct (invertIds (_documentIds s) !! id) as [shortId|] eqn:Hinv; [|done].
    apply invertIds_lookup in Hinv; [|done]. apply Hc in Hinv. congruence.
Qed.

(** C7, against the model of [loadJSON]. For every state, loading the
    record [toJSON] wrote, with the options the index was created with,
    gives a state with the same options and the same serialised data, and
    with the map from external ids rebuilt as the inverse of the map from
    short ids (the map the state had, if its two maps were inverse to each
    other). Every [executeQuery] that reads nothing but the options and
    the serialised data gives [search] the same results on both states,
    for every query and every search options. *)
Theorem loadJSON_toJSON (s : SearchIndex) (options : option SearchIndexOptions) :
  (∃ fresh, constructor options = Return fresh ∧ _options fresh = _options s) →
  (∀ s1 s2 q o, same_data s1 s2 → executeQuery s1 q o = executeQuery s2 q o) →
  ∃ s',
    loadJSON (toJSON s) options = Return s' ∧
    same_data s s' ∧
    (ids_consistent s → _idToShortId s' = _idToShortId s) ∧
    ∀ q o, search s' q o = search s q o.
Proof using Type.
  intros (fresh & Hfresh & Hoptions) Hreads.
  assert (Hload : loadJSON (toJSON s) options =
    Return
      {| _options := _options fresh;
         _index := loadIndex (index (toJSON s));
         _documentCount := _documentCount s;
         _documentIds := objectToNumericMap (fromEntries (_documentIds s));
         _idToShortId :=
           invertIds (objectToNumericMap (fromEntries (_documentIds s)));
         _fieldIds := _fieldIds s;
         _fieldLength := objectToNumericMap (fromEntries (_fieldLength s));
         _avgFieldLength := _avgFieldLength s;
         _nextId := _nextId s;
         _storedFields := objectToNumericMap (fromEntries (_storedFields s));
         _dirtCount := _dirtCount s;
         _currentVacuum := _currentVacuum fresh;
         _enqueuedVacuum := _enqueuedVacuum fresh;
         _enqueuedVacuumConditions := _enqueuedVacuumConditions fresh |}).
  { unfold loadJSON. by rewrite Hfresh. }
  rewrite Hload. clear Hload.
  rewrite !objectToNumericMap_fromEntries, loadIndex_toJSON.
  eexists. split; [done|].
  assert (Hsame : same_data s
    {| _options := _options fresh;
       _index := _index s;
       _documentCount := _documentCount s;
       _documentIds := _documentIds s;
       _idToShortId := invertIds (_documentIds s);
       _fieldIds := _fieldIds s;
       _fieldLength := _fieldLength s;
       _avgFieldLength := _avgFieldLength s;
       _nextId := _nextId s;
       _storedFields := _storedFields s;
       _dirtCount := _dirtCount s;
       _currentVacuum := _currentVacuum fresh;
       _enqueuedVacuum := _enqueuedVacuum fresh;
       _enqueuedVacuumConditions := _enqueuedVacuumConditions fresh |}).
  { unfold same_data. simpl. by rewrite Hoptions. }
  split; [exact Hsame|]. split.
  { intros Hids. simpl. by apply invertIds_consistent. }
  intros q o. unfold search.
  rewrite <- (Hreads _ _ q (default emptySearchOptions o) Hsame).
  done.
Qed.

(** * Further properties of the code *)

(** ** term.ts on arbitrary states *)

(** [removeTerm] never throws: the non-null assertion of its last
    statement always finds the term. Of the state only the dictionary
    changes, of the dictionary only the entry of [term], and no term is
    ever added. *)
Theorem removeTerm_returns_and_frames (s : SearchIndex) (f d : N) (t : string) :
  ∃ dict' logged,
    removeTerm s f d t = Return (with_index s dict', logged) ∧
    removeTerm' s f d t = Return (with_index s dict', logged) ∧
    (∀ t', t' ≠ t → dict' !! t' = _index s !! t') ∧
    (∀ t', is_Some (dict' !! t') → is_Some (_index s !! t')) ∧
    (size dict' ≤ size (_index s))%nat.
Proof.
  assert (Hcases : ∃ dict' logged,
    removeTerm s f d t = Return (with_index s dict', logged) ∧
    (dict' = _index s ∨ dict' = base.delete t (_index s) ∨
     ∃ data, is_Some (_index s !! t) ∧ dict' = <[t := data]> (_index s))).
  { destruct (posting (_index s) t f d) as [a|] eqn:Hp.
    - unfold posting in Hp.
      destruct (_index s !! t) as [data|] eqn:Ht; [|done].
      destruct (data !! f) as [m|] eqn:Hf; [|done].
      rewrite (removeTerm_Some s f d t data m a Ht Hf Hp). simpl.
      match goal with |- context [(size ?x =? 0)%nat] =>
        destruct (size x =? 0)%nat end.
      + eexists _, _. split; [done|]. right. by left.
      + eexists _, _. split; [done|]. right. right. eexists. split; [|done].
        eauto.
    - rewrite (removeTerm_None s f d t Hp).
      destruct (_index s !! t) as [data|] eqn:Ht.
      + destruct (size data =? 0)%nat.
        * eexists _, _. split; [done|]. right. by left.
        * eexists _, _. split; [done|]. by left.
      + eexists _, _. split; [done|]. by left. }
  destruct Hcases as (dict' & logged & Hrun & Hshape).
  exists dict', logged. split; [done|].
  split; [by rewrite removeTerm'_removeTerm|].
  destruct Hshape as [->|[->|(data & Hsome & ->)]].
  - done.
  - split; [|split].
    + intros t' Hne. by rewrite lookup_delete_ne.
    + intros t' [x Hx]. apply lookup_delete_Some in Hx as [_ Hx]. eauto.
    + destruct (_index s !! t) as [x|] eqn:Ht.
      * rewrite map_size_delete_Some by eauto. lia.
      * rewrite map_size_delete_None by done. lia.
  - split; [|split].
    + intros t' Hne. by rewrite lookup_insert_ne.
    + intros t' Hx. destruct (decide (t = t')) as [<-|Hne]; [done|].
      by rewrite lookup_insert_ne in Hx.
    + rewrite map_size_insert_Some by done. lia.
Qed.

(** [removeTerm] calls the logger exactly when the posting it is asked to
    remove is not there, and then once. *)
Theorem removeTerm_warns_iff_missing (s : SearchIndex) (f d : N) (t : string) :
  ∃ s',
    removeTerm s f d t =
      Return (s', match posting (_index s) t f d with
                  | Some _ => []
                  | None => warnDocumentChanged s d f t
                  end).
Proof.
  destruct (posting (_index s) t f d) as [a|] eqn:Hp.
  - unfold posting in Hp.
    destruct (_index s !! t) as [data|] eqn:Ht; [|done].
    destruct (data !! f) as [m|] eqn:Hf; [|done].
    rewrite (removeTerm_Some s f d t data m a Ht Hf Hp). by eexists.
  - rewrite (removeTerm_None s f d t Hp). by eexists.
Qed.

(** The two copies of the module compute the same: [docs || 0] and
    [docs ?? 0], and the two ways to test for a missing entry, do not
    differ on any state. *)
Theorem term_copies_agree (s : SearchIndex) (f d : N) (t : string) :
  addTerm' s f d t = addTerm s f d t ∧
  removeTerm' s f d t = removeTerm s f d t.
Proof. split; [apply addTerm'_addTerm|apply removeTerm'_removeTerm]. Qed.

Lemma or_zero_default (a : option Z) : or_zero a = default 0 a.
Proof. rewrite or_zero_nullish. by destruct a. Qed.

Lemma addTerm_with_index (s : SearchIndex) (f d : N) (t : string) :
  addTerm s f d t = with_index s (_index (addTerm s f d t)).
Proof.
  unfold addTerm. destruct (SearchableMap.fetch _ _ _) as [data dict].
  by destruct (data !! f).
Qed.

(** On every state, [addTerm] leaves every posting but its own as it is,
    touches no other member of the state, and makes the dictionary one
    term larger exactly when the term is new. It raises the frequency of
    its posting by one when that is a safe integer (a missing posting
    counts as zero); beyond [2^53] the sum of the code is rounded. *)
Theorem addTerm_counts_one (s : SearchIndex) (f d : N) (t : string) :
  let s' := addTerm s f d t in
  s' = with_index s (_index s') ∧
  (isSafeInteger (frequency (_index s) t f d) →
   frequency (_index s') t f d = frequency (_index s) t f d + 1) ∧
  (∀ t' f' d', ¬ (t = t' ∧ f = f' ∧ d = d') →
     posting (_index s') t' f' d' = posting (_index s) t' f' d') ∧
  is_Some (_index s' !! t) ∧
  termCount s' =
    (termCount s + (if SearchableMap.has t (_index s) then 0 else 1))%nat.
Proof.
  intros s'. split; [apply addTerm_with_index|]. split; [|split; [|split]].
  - intros _. unfold frequency, s'. rewrite posting_addTerm, decide_True by done.
    simpl. by rewrite or_zero_default.
  - intros t' f' d' Hne. unfold s'. by rewrite posting_addTerm, decide_False.
  - unfold s'. rewrite addTerm_index. simpl. by rewrite lookup_insert_eq.
  - unfold termCount, SearchableMap.size, SearchableMap.has, s'.
    rewrite addTerm_index. simpl.
    destruct (_index s !! t) as [data|] eqn:Ht.
    + rewrite bool_decide_eq_true_2 by eauto.
      rewrite map_size_insert_Some by eauto. lia.
    + rewrite bool_decide_eq_false_2 by (intros [? ?]; done).
      rewrite map_size_insert_None by done. lia.
Qed.

(** The entry of a term after [addTerm], and the entries of the others. *)
Lemma lookup_addTerm (s : SearchIndex) (f d : N) (t t' : string) :
  _index (addTerm s f d t) !! t' =
  if decide (t = t')
  then Some (<[f := <[d := or_zero (documentsOf (_index s) t f !! d) + 1]>
                       (documentsOf (_index s) t f)]>
               (fieldData (_index s) t))
  else _index s !! t'.
Proof.
  rewrite addTerm_index. simpl. rewrite lookup_insert.
  by destruct (decide (t = t')).
Qed.

Lemma fieldData_addTerm (s : SearchIndex) (f d : N) (t t' : string) :
  fieldData (_index (addTerm s f d t)) t' =
  if decide (t = t')
  then <[f := <[d := or_zero (documentsOf (_index s) t f !! d) + 1]>
                 (documentsOf (_index s) t f)]>
         (fieldData (_index s) t)
  else fieldData (_index s) t'.
Proof.
  unfold fieldData at 1. rewrite lookup_addTerm.
  by destruct (decide (t = t')).
Qed.

Lemma documentsOf_addTerm (s : SearchIndex) (f d : N) (t t' : string) (f' : N) :
  documentsOf (_index (addTerm s f d t)) t' f' =
  if decide (t = t' ∧ f = f')
  then <[d := or_zero (documentsOf (_index s) t f !! d) + 1]>
         (documentsOf (_index s) t f)
  else documentsOf (_index s) t' f'.
Proof.
  unfold documentsOf at 1. rewrite fieldData_addTerm.
  destruct (decide (t = t')) as [<-|Ht].
  - rewrite lookup_insert. destruct (decide (f = f')) as [<-|Hf].
    + by rewrite decide_True.
    + rewrite decide_False by (intros [_ ?]; done). done.
  - rewrite decide_False by (intros [? _]; done). done.
Qed.

(** Two calls to [addTerm] can be swapped: the postings that can be
    looked up afterwards, the terms of the dictionary and the other
    members of the state do not depend on the order of the calls. (The
    order in which a [Map] lists its entries does depend on it; that
    order is not part of what is stated.) *)
Theorem addTerm_commutes (s : SearchIndex) (f1 d1 : N) (t1 : string)
  (f2 d2 : N) (t2 : string) :
  let s12 := addTerm (addTerm s f1 d1 t1) f2 d2 t2 in
  let s21 := addTerm (addTerm s f2 d2 t2) f1 d1 t1 in
  (∀ t f d, posting (_index s12) t f d = posting (_index s21) t f d) ∧
  (∀ t, is_Some (_index s12 !! t) ↔ is_Some (_index s21 !! t)) ∧
  s12 = with_index s (_index s12) ∧
  s21 = with_index s (_index s21).
Proof.
  intros s12 s21.
  assert (Hframe : ∀ fa da ta fb db tb,
    addTerm (addTerm s fa da ta) fb db tb =
    with_index s (_index (addTerm (addTerm s fa da ta) fb db tb))).
  { intros. rewrite (addTerm_with_index (addTerm s fa da ta)) at 1.
    rewrite (addTerm_with_index s fa da ta) at 1.
    by rewrite with_index_twice. }
  assert (Hcontents : _index s12 = _index s21).
  2:{ split; [by rewrite Hcontents|]. split; [by rewrite Hcontents|].
      split; apply Hframe. }
  cut (s12 = s21); [by intros ->|]. unfold s12, s21.
  rewrite (addTerm_with_index (addTerm s f1 d1 t1)),
    (addTerm_with_index (addTerm s f2 d2 t2)).
  rewrite (addTerm_with_index s f1 d1 t1) at 1.
  rewrite (addTerm_with_index s f2 d2 t2) at 1.
  rewrite !with_index_twice. f_equal.
  apply map_eq. intros t. rewrite !lookup_addTerm.
  destruct (decide (t2 = t)) as [->|H2], (decide (t1 = t)) as [->|H1].
  - (* the same term *)
    f_equal. rewrite !fieldData_addTerm, !documentsOf_addTerm.
    rewrite !(decide_True (P := t = t)) by done.
    destruct (decide (f1 = f2)) as [->|Hf].
    + rewrite !(decide_True (P := t = t ∧ f2 = f2)) by done.
      rewrite !insert_insert_eq. f_equal.
      destruct (decide (d1 = d2)) as [->|Hd]; [done|].
      rewrite !lookup_insert_ne by done. by apply insert_insert_ne.
    + rewrite (decide_False (P := t = t ∧ f1 = f2)) by (intros [_ ?]; done).
      rewrite (decide_False (P := t = t ∧ f2 = f1)) by (intros [_ ?]; done).
      by apply insert_insert_ne.
  - rewrite fieldData_addTerm, documentsOf_addTerm.
    rewrite !decide_False by (try intros [? _]; done). done.
  - rewrite fieldData_addTerm, documentsOf_addTerm.
    rewrite !decide_False by (try intros [? _]; done). done.
  - done.
Qed.

(** On a well-formed dictionary [addTerm] undoes [removeTerm] of a posting
    that was there, when its frequency is a safe integer: the removal
    logs nothing, and afterwards every posting that can be looked up, the
    terms of the dictionary and the other members of the state are what
    they were. (The document may come last in the [Map] of its field
    afterwards; that order is not part of what is stated.) *)
Theorem addTerm_removeTerm (s : SearchIndex) (f d : N) (t : string) :
  well_formed (_index s) → is_Some (posting (_index s) t f d) →
  isSafeInteger (frequency (_index s) t f d) →
  ∃ s',
    removeTerm s f d t = Return (s', []) ∧
    let s'' := addTerm s' f d t in
    (∀ t' f' d',
       posting (_index s'') t' f' d' = posting (_index s) t' f' d') ∧
    (∀ t', is_Some (_index s'' !! t') ↔ is_Some (_index s !! t')) ∧
    s'' = with_index s (_index s'').
Proof.
  intros Hwf [a Hp] _.
  pose proof (well_formed_posting _ _ _ _ _ Hwf Hp) as Ha.
  destruct (removeTerm_present s f d t a Hwf Hp) as (dict' & Hrun & Hwf' & Hpost).
  exists (with_index s dict'). split; [done|].
  cut (addTerm (with_index s dict') f d t = s).
  { intros ->. split; [done|]. split; [done|]. symmetry. apply with_index_same. }
  rewrite addTerm_with_index, with_index_twice.
  transitivity (with_index s (_index s)); [|apply with_index_same]. f_equal.
  apply well_formed_ext; [by apply well_formed_addTerm|done|].
  intros t' f' d'. rewrite posting_addTerm. simpl.
  destruct (decide (t = t' ∧ f = f' ∧ d = d')) as [(<- & <- & <-)|Hne].
  - rewrite Hpost, decide_True, Hp by done.
    destruct (decide (a = 1)) as [->|Hone]; simpl; [done|].
    destruct (Z.eqb_spec (a - 1) 0); [lia|]. f_equal. lia.
  - by rewrite Hpost, decide_False.
Qed.

Lemma isVersionConflict_warning (s : SearchIndex) (d f : N) (t : string) :
  Forall isVersionConflict (warnDocumentChanged s d f t).
Proof.
  repeat constructor. simpl. eauto.
Qed.

(** From a well-formed dictionary every sequence of [addTerm] and
    [removeTerm] calls runs to its end without a throw and leaves a
    well-formed dictionary: no term without a field entry, no field entry
    without a document, no frequency below one. Only the dictionary
    changes; every call to the logger is a [version_conflict] warning,
    and there are at most as many as there were [removeTerm] calls. *)
Theorem term_operations_keep_shape (s : SearchIndex) (ops : list TermOperation) :
  well_formed (_index s) →
  ∃ dict' logged,
    applyOperations s ops = Return (with_index s dict', logged) ∧
    well_formed dict' ∧
    Forall isVersionConflict logged ∧
    (length logged ≤ removals ops)%nat.
Proof.
  revert s. induction ops as [|op ops IH]; intros s Hwf; simpl.
  - exists (_index s), []. rewrite with_index_same.
    split; [done|]. split; [done|]. split; [constructor|]. unfold removals.
    simpl. lia.
  - assert (Hstep : ∃ dict1 l1,
      applyOperation s op = Return (with_index s dict1, l1) ∧
      well_formed dict1 ∧ Forall isVersionConflict l1 ∧
      (length l1 ≤ if isRemoval op then 1 else 0)%nat).
    { destruct op as [f d t|f d t]; simpl.
      - exists (_index (addTerm s f d t)), [].
        rewrite <- addTerm_with_index. split; [done|].
        split; [by apply well_formed_addTerm|]. split; [constructor|done].
      - destruct (posting (_index s) t f d) as [a|] eqn:Hp.
        + destruct (removeTerm_present s f d t a Hwf Hp)
            as (dict1 & -> & Hwf1 & _).
          exists dict1, []. split; [done|]. split; [done|].
          split; [constructor|simpl; lia].
        + rewrite removeTerm_absent by done.
          exists (_index s), (warnDocumentChanged s d f t).
          rewrite with_index_same. split; [done|]. split; [done|].
          split; [apply isVersionConflict_warning|simpl; lia]. }
    destruct Hstep as (dict1 & l1 & -> & Hwf1 & Hl1 & Hlen1).
    destruct (IH (with_index s dict1) Hwf1) as (dict' & l' & -> & Hwf' & Hl' & Hlen').
    exists dict', (l1 ++ l'). rewrite with_index_twice.
    split; [done|]. split; [done|]. split; [by apply Forall_app|].
    rewrite length_app. unfold removals in *. rewrite filter_cons.
    destruct (decide (isRemoval op = true)) as [Hr|Hr].
    + rewrite Hr in Hlen1. simpl. lia.
    + apply not_true_is_false in Hr. rewrite Hr in Hlen1. lia.
Qed.

Lemma occurrences_Permutation (f : N) (t : string) (l l' : list (N * string)) :
  l ≡ₚ l' → occurrences f t l = occurrences f t l'.
Proof. intros Hperm. unfold occurrences. by rewrite Hperm. Qed.

Lemma well_formed_posting_frequency (dict : gmap string FieldTermData)
  (t : string) (f d : N) :
  well_formed dict →
  posting dict t f d =
  if decide (frequency dict t f d = 0) then None
  else Some (frequency dict t f d).
Proof.
  intros Hwf. unfold frequency.
  destruct (posting dict t f d) as [n|] eqn:Hp; simpl; [|done].
  pose proof (well_formed_posting _ _ _ _ _ Hwf Hp).
  by rewrite decide_False by lia.
Qed.

(** The postings of a document can be removed in any order: on a
    well-formed dictionary that holds them all, two lists of the same
    postings lead to the same state, without a warning. *)
Theorem removePostings_any_order (s : SearchIndex) (d : N)
  (l l' : list (N * string)) :
  well_formed (_index s) →
  (∀ f t, occurrences f t l ≤ frequency (_index s) t f d) →
  l ≡ₚ l' →
  ∃ s', removePostings s d l = Return (s', []) ∧
        removePostings s d l' = Return (s', []).
Proof.
  intros Hwf Hocc Hperm.
  destruct (removePostings_frequencies l s d Hwf Hocc)
    as (dict1 & Hrun1 & Hwf1 & Hfreq1 & Hother1).
  destruct (removePostings_frequencies l' s d Hwf)
    as (dict2 & Hrun2 & Hwf2 & Hfreq2 & Hother2).
  { intros f t. rewrite <- (occurrences_Permutation f t l l' Hperm). apply Hocc. }
  exists (with_index s dict1). split; [done|].
  rewrite Hrun2. do 3 f_equal.
  apply well_formed_ext; [done|done|]. intros t f d'.
  destruct (decide (d' = d)) as [->|Hd'].
  - rewrite (well_formed_posting_frequency dict2), (well_formed_posting_frequency dict1)
      by done.
    by rewrite Hfreq1, Hfreq2, (occurrences_Permutation f t l l' Hperm).
  - by rewrite Hother1, Hother2.
Qed.

(** ** The constructor *)

Lemma lookup_setProperty (x name : string) (v : N) (ids : gmap string N) :
  setProperty x v ids !! name =
  if decide (x = name ∧ x ≠ "__proto__") then Some v else ids !! name.
Proof.
  unfold setProperty. destruct (decide (x = "__proto__")) as [Hp|Hp].
  - rewrite decide_False; [done|]. by intros [_ ?].
  - destruct (decide (x = name)) as [->|Hne].
    + rewrite decide_True by done. by rewrite lookup_insert_eq.
    + rewrite decide_False by (by intros [? _]). by rewrite lookup_insert_ne.
Qed.

Lemma addFieldsFrom_notin (names : list string) (i : N) (ids : gmap string N)
  (name : string) :
  name ∉ names → addFieldsFrom i names ids !! name = ids !! name.
Proof.
  revert i ids. induction names as [|x names IH]; intros i ids Hnotin; simpl.
  - done.
  - apply not_elem_of_cons in Hnotin as [Hne Hnotin].
    rewrite IH by done. rewrite lookup_setProperty.
    rewrite decide_False; [done|]. intros [Heq _]. by apply Hne.
Qed.

Lemma addFieldsFrom_Some (names : list string) (i : N) (ids : gmap string N)
  (name : string) (k : N) :
  addFieldsFrom i names ids !! name = Some k →
  ids !! name = Some k ∨
  ∃ j, names !! j = Some name ∧ k = (i + N.of_nat j)%N ∧ name ≠ "__proto__".
Proof.
  revert i ids. induction names as [|x names IH]; intros i ids Hl; simpl in Hl.
  - by left.
  - destruct (IH _ _ Hl) as [Hins|(j & Hj & -> & Hp)].
    + rewrite lookup_setProperty in Hins.
      destruct (decide (x = name ∧ x ≠ "__proto__")) as [[-> Hp]|Hno].
      * injection Hins as <-.
        right. exists 0%nat. split; [done|]. split; [lia|done].
      * by left.
    + right. exists (S j). split; [done|]. split; [lia|done].
Qed.

Lemma addFieldsFrom_NoDup (names : list string) (i : N) (ids : gmap string N)
  (j : nat) (name : string) :
  NoDup names → names !! j = Some name → name ≠ "__proto__" →
  addFieldsFrom i names ids !! name = Some (i + N.of_nat j)%N.
Proof.
  revert i ids j. induction names as [|x names IH]; intros i ids j Hnd Hj Hp;
    [done|].
  apply NoDup_cons in Hnd as [Hx Hnd]. simpl. destruct j as [|j]; simpl in Hj.
  - injection Hj as ->. rewrite addFieldsFrom_notin by done.
    rewrite lookup_setProperty, decide_True by done. f_equal. lia.
  - rewrite (IH _ _ j) by done. f_equal. lia.
Qed.

Lemma addFieldsFrom_elem_of (names : list string) (i : N)
  (ids : gmap string N) (name : string) :
  name ∈ names → name ≠ "__proto__" →
  is_Some (addFieldsFrom i names ids !! name).
Proof.
  revert i ids. induction names as [|x names IH]; intros i ids Hin Hp; simpl.
  - by apply elem_of_nil in Hin.
  - destruct (decide (name ∈ names)) as [Hrest|Hrest]; [by apply IH|].
    apply elem_of_cons in Hin as [->|Hin]; [|done].
    rewrite addFieldsFrom_notin by done.
    rewrite lookup_setProperty, decide_True by done. eauto.
Qed.

(** The constructor numbers the fields in the order of their declaration.
    [_fieldIds] is a plain object: a field named [__proto__] gets no id,
    and every other declared field has one, no other name has. The id of
    a field is a position at which it is declared, and without
    repetitions it is the position. *)
Theorem constructor_numbers_fields (options : option SearchIndexOptions)
  (names : list string) :
  options ≫= cfg_fields = Some names →
  ∃ s,
    constructor options = Return s ∧
    fields (_options s) = names ∧
    (∀ name, is_Some (_fieldIds s !! name) ↔
       name ∈ names ∧ name ≠ "__proto__") ∧
    (∀ name k, _fieldIds s !! name = Some k →
       names !! N.to_nat k = Some name) ∧
    (NoDup names →
     ∀ j name, names !! j = Some name → name ≠ "__proto__" →
       _fieldIds s !! name = Some (N.of_nat j)).
Proof using Type.
  intros Hnames. unfold constructor. rewrite Hnames.
  eexists. split; [done|]. simpl. split; [done|]. unfold addFields.
  split; [|split].
  - intros name. split.
    + intros [k Hk]. apply addFieldsFrom_Some in Hk
        as [Hk|(j & Hj & _ & Hp)]; [by rewrite lookup_empty in Hk|].
      split; [|done]. by eapply list_elem_of_lookup_2.
    + intros [Hin Hp]. by apply addFieldsFrom_elem_of.
  - intros name k Hk. apply addFieldsFrom_Some in Hk
      as [Hk|(j & Hj & -> & _)]; [by rewrite lookup_empty in Hk|].
    by rewrite N.add_0_l, Nat2N.id.
  - intros Hnd j name Hj Hp.
    by rewrite (addFieldsFrom_NoDup names 0 ∅ j name Hnd Hj Hp), N.add_0_l.
Qed.

Lemma spreadSearchOptions_empty (o : SearchOptions) :
  spreadSearchOptions o emptySearchOptions = o.
Proof. by destruct o. Qed.

(** What the constructor does with options that are left out: without
    [searchOptions] and [autoSuggestOptions] the index holds the defaults
    unchanged, and [autoVacuum] left out or [true] means the default
    settings, [false] means none, and settings of one's own are kept. *)
Theorem constructor_fills_defaults (o : SearchIndexOptions) (names : list string) :
  cfg_fields o = Some names →
  ∃ s,
    constructor (Some o) = Return s ∧
    (cfg_searchOptions o = None →
     searchOptions (_options s) = defaultSearchOptions) ∧
    (cfg_autoSuggestOptions o = None →
     autoSuggestOptions (_options s) = defaultAutoSuggestOptions) ∧
    autoVacuum (_options s) =
      match cfg_autoVacuum o with
      | None => Some defaultAutoVacuumOptions
      | Some (AutoVacuumBool enabled) =>
          if enabled then Some defaultAutoVacuumOptions else None
      | Some (AutoVacuumCustom custom) => Some custom
      end.
Proof using Type.
  intros Hnames. unfold constructor. simpl. rewrite Hnames.
  eexists. split; [done|]. simpl. split; [|split].
  - intros ->. apply spreadSearchOptions_empty.
  - intros ->. apply spreadSearchOptions_empty.
  - by destruct (cfg_autoVacuum o) as [[[]|]|].
Qed.

(** A new index is empty and clean: it has no term, no document and no
    dirt, its dirt factor is zero, no vacuuming is under way, and what
    [toJSON] gives for it holds no term and no document. *)
Theorem constructor_starts_empty (options : option SearchIndexOptions)
  (s : SearchIndex) :
  constructor options = Return s →
  termCount s = 0%nat ∧
  _documentCount s = 0 ∧
  _dirtCount s = 0 ∧
  (dirtFactor s == 0)%Q ∧
  isVacuuming s = false ∧
  well_formed (_index s) ∧
  index (toJSON s) = [] ∧
  documentIds (toJSON s) = ∅ ∧
  storedFields (toJSON s) = ∅ ∧
  fieldLength (toJSON s) = ∅.
Proof using Type.
  unfold constructor. destruct (options ≫= cfg_fields) as [names|]; [|done].
  intros [= <-]. unfold termCount, dirtFactor, isVacuuming, toJSON, fromEntries.
  simpl. rewrite !kmap_empty.
  repeat split; done.
Qed.

(** ** dirtFactor *)

Lemma quotient_Qmake (n b : Z) :
  0 < b → (inject_Z n / inject_Z b == n # Z.to_pos b)%Q.
Proof.
  intros Hb. destruct b as [|p|p]; [lia| |lia].
  unfold Qdiv, Qinv, Qmult, Qeq, inject_Z. simpl. lia.
Qed.

(** With counters that are not negative and add up to [2^53] at most,
    [dirtFactor] is zero exactly when nothing was discarded, and it does
    not fall when the dirt grows and the number of documents does not.
    (It need not rise: two quotients can be rounded to the same
    double.) *)
Theorem dirtFactor_grows_with_dirt (s : SearchIndex) :
  0 ≤ _documentCount s → 0 ≤ _dirtCount s →
  1 + _documentCount s + _dirtCount s ≤ 2 ^ 53 →
  ((dirtFactor s == 0)%Q ↔ _dirtCount s = 0) ∧
  ∀ s' : SearchIndex,
    0 ≤ _documentCount s' ≤ _documentCount s →
    _dirtCount s ≤ _dirtCount s' →
    1 + _documentCount s' + _dirtCount s' ≤ 2 ^ 53 →
    (dirtFactor s <= dirtFactor s')%Q.
Proof.
  intros Hdocs Hdirt Hsum. split.
  - rewrite (dirtFactor_quotient s) by done.
    rewrite roundDouble_zero, quotient_Qmake by lia.
    unfold Qeq. simpl. lia.
  - intros s' Hdocs' Hdirt' Hsum'.
    rewrite (dirtFactor_quotient s), (dirtFactor_quotient s') by lia.
    apply roundDouble_mono. rewrite !quotient_Qmake by lia.
    unfold Qle. simpl. rewrite !Z2Pos.id by lia. nia.
Qed.

(** ** toJSON *)

Lemma fromEntries_inj {V : Type} : Inj (=) (=) (fromEntries (V := V)).
Proof. pose proof propertyKey_inj. unfold fromEntries. apply _. Qed.

Lemma serializeTerm_inj : Inj (=) (=) serializeTerm.
Proof.
  intros a c Heq. rewrite !serializeTerm_kmap in Heq.
  pose proof propertyKey_inj. pose proof (fromEntries_inj (V := Z)).
  apply (inj (kmap propertyKey)) in Heq. by apply (inj (fmap fromEntries)) in Heq.
Qed.

Lemma elem_of_toJSON_index (s : SearchIndex) (t : string)
  (data : gmap string SerializedIndexEntry) :
  (t, data) ∈ index (toJSON s) ↔
  ∃ fieldIndex, _index s !! t = Some fieldIndex ∧ data = serializeTerm fieldIndex.
Proof.
  rewrite toJSON_index, list_elem_of_fmap. split.
  - intros ([t' fi] & [= -> ->] & Hin). exists fi. split; [|done].
    by apply elem_of_map_to_list.
  - intros (fi & Ht & ->). exists (t, fi). split; [done|].
    by apply elem_of_map_to_list.
Qed.

(** [toJSON] loses none of the data it is given: two states with the same
    serialised record have the same dictionary, the same documents, field
    lengths and stored fields, and the same counters. *)
Theorem toJSON_injective (s1 s2 : SearchIndex) :
  toJSON s1 = toJSON s2 →
  _index s1 = _index s2 ∧
  _documentCount s1 = _documentCount s2 ∧
  _nextId s1 = _nextId s2 ∧
  _documentIds s1 = _documentIds s2 ∧
  _fieldIds s1 = _fieldIds s2 ∧
  _fieldLength s1 = _fieldLength s2 ∧
  _avgFieldLength s1 = _avgFieldLength s2 ∧
  _storedFields s1 = _storedFields s2 ∧
  _dirtCount s1 = _dirtCount s2.
Proof.
  intros Heq.
  assert (Hindex : _index s1 = _index s2).
  { apply (f_equal index) in Heq. rewrite !toJSON_index in Heq.
    assert (Hinj : Inj (=) (=)
      (λ entry : string * FieldTermData, (entry.1, serializeTerm entry.2))).
    { intros [t1 a] [t2 c] [= -> Hs]. f_equal. by apply serializeTerm_inj. }
    apply (inj (fmap _)) in Heq. apply map_to_list_inj. by rewrite Heq. }
  split; [done|].
  split; [exact (f_equal documentCount Heq)|].
  split; [exact (f_equal nextId Heq)|].
  split; [apply fromEntries_inj; exact (f_equal documentIds Heq)|].
  split; [exact (f_equal fieldIds Heq)|].
  split; [apply fromEntries_inj; exact (f_equal fieldLength Heq)|].
  split; [exact (f_equal averageFieldLength Heq)|].
  split; [apply fromEntries_inj; exact (f_equal storedFields Heq)|].
  apply (f_equal dirtCount) in Heq. simpl in Heq. by injection Heq.
Qed.

(** What [toJSON] shows of a call to [addTerm]: when the frequency of
    the posting was a safe integer, the entry of the term holds it raised
    by one; the entries of the other terms and every other property of
    the record are as before. *)
Theorem toJSON_addTerm (s : SearchIndex) (f d : N) (t : string) :
  let js := toJSON s in
  let js' := toJSON (addTerm s f d t) in
  (isSafeInteger (frequency (_index s) t f d) →
   ∃ data,
     (t, data) ∈ index js' ∧
     serializedFrequency data f d = Some (frequency (_index s) t f d + 1)) ∧
  (∀ t' data, t' ≠ t → (t', data) ∈ index js' ↔ (t', data) ∈ index js) ∧
  documentCount js' = documentCount js ∧
  nextId js' = nextId js ∧
  documentIds js' = documentIds js ∧
  fieldIds js' = fieldIds js ∧
  fieldLength js' = fieldLength js ∧
  averageFieldLength js' = averageFieldLength js ∧
  storedFields js' = storedFields js ∧
  dirtCount js' = dirtCount js ∧
  version js' = version js.
Proof.
  intros js js'. split; [|split].
  - intros _. destruct (_index (addTerm s f d t) !! t) as [fi|] eqn:Ht.
    + exists (serializeTerm fi). split.
      * apply elem_of_toJSON_index. by exists fi.
      * rewrite (serializedFrequency_serializeTerm _ t fi f d Ht).
        rewrite posting_addTerm, decide_True by done.
        by rewrite or_zero_default.
    + rewrite lookup_addTerm, decide_True in Ht by done. done.
  - intros t' data Hne. unfold js, js'. rewrite !elem_of_toJSON_index.
    by rewrite lookup_addTerm, decide_False.
  - unfold js, js'. rewrite (addTerm_with_index s f d t). done.
Qed.

(** ** search *)

(** What a result of [search] holds: it is built for an entry of the
    combined results and carries exactly the stored fields of that
    document. Without stored fields it has the external id of the
    document, the match of the entry and the matched terms, which are the
    keys of the match and not the query terms of the entry, and no other
    property. A stored field named [id], [terms] or [match] takes the
    place of that property. *)
Theorem search_carries_stored_fields (s : SearchIndex) (q : Query)
  (o : option SearchOptions) (r : SearchResult) :
  r ∈ search s q o →
  ∃ docId entry,
    (docId, entry) ∈ executeQuery s q (default emptySearchOptions o) ∧
    match _storedFields s !! docId with
    | Some stored =>
        r_other r = stored_other stored ∧
        r_id r = spread (_documentIds s !! docId) (stored_id stored) ∧
        r_terms r = default (qr_match entry).*1 (stored_terms stored) ∧
        r_match r = default (qr_match entry) (stored_match stored)
    | None =>
        r_other r = ∅ ∧
        r_id r = _documentIds s !! docId ∧
        r_terms r = (qr_match entry).*1 ∧
        r_match r = qr_match entry
    end.
Proof.
  intros Hin. rewrite search_hits in Hin.
  apply list_elem_of_fmap in Hin as ([docId r'] & -> & Hin).
  apply elem_of_hits in Hin as [_ (entry & Hentry & ->)].
  exists docId, entry. split; [done|].
  unfold resultOf, Object_assign.
  destruct (_storedFields s !! docId) as [stored|]; simpl; [|done].
  split; [|done]. apply (right_id ∅ (∪)).
Qed.

Lemma frequency_nonneg (dict : gmap string FieldTermData) (t : string)
  (f d : N) :
  well_formed dict → 0 ≤ frequency dict t f d.
Proof.
  intros Hwf. unfold frequency.
  destruct (posting dict t f d) as [n|] eqn:Hp; simpl; [|done].
  pose proof (well_formed_posting _ _ _ _ _ Hwf Hp). lia.
Qed.

End Engine.

(** * The properties at sample states

    External ids are numbers here; stored values, documents and the
    logger carry no data. *)

(** "moby" twice and "dick" once in field [0] of document [1], then
    "moby" once in field [1] of document [2]. *)
Example addTerm_sample :
  _index
    (addTerm
       (addTerm
          (addTerm
             (addTerm
                (sampleIndex (ID:=N) (Value:=unit) (Document:=unit) tt ∅)
                0%N 1%N "moby")
             0%N 1%N "dick")
          0%N 1%N "moby")
       1%N 2%N "moby") =
  twoDocuments.
Proof. vm_compute. reflexivity. Qed.

(** Removing one of the two occurrences of "moby" lowers the frequency;
    no call to the logger is made. *)
Example removeTerm_sample :
  removeTerm
    (sampleIndex (ID:=N) (Value:=unit) (Document:=unit) tt twoDocuments)
    0%N 1%N "moby" =
  Return
    (sampleIndex tt
       {[ "moby" := {[ 0%N := {[ 1%N := 1 ]}; 1%N := {[ 2%N := 1 ]} ]};
          "dick" := {[ 0%N := {[ 1%N := 1 ]} ]} ]},
     []).
Proof. vm_compute. reflexivity. Qed.

(** C2 as the specification words it fails on a term without field
    entries: [removeTerm] warns, and then drops the term. *)
Lemma removeTerm_drops_bare_term :
  ¬ warns_and_keeps_dictionary
      (sampleIndex (ID:=N) (Value:=unit) (Document:=unit) tt bareTerm)
      0%N 0%N "a".
Proof.
  intros Hclaim. destruct Hclaim as (s' & Hrun & Hsame).
  { right. left. exists ∅. split; reflexivity. }
  vm_compute in Hrun. injection Hrun as <-.
  apply (f_equal (λ dict : gmap string FieldTermData, dict !! "a")) in Hsame.
  vm_compute in Hsame. discriminate Hsame.
Qed.

Lemma removeTerm_missing_posting_witness :
  let s := sampleIndex (ID:=N) (Value:=unit) (Document:=unit) tt twoDocuments in
  posting_missing (_index s) "dick" 0%N 2%N ∧
  ∃ s',
    removeTerm s 0%N 2%N "dick" =
      Return (s', [ {| level := LogWarn;
                       message := DocumentChanged 2%N 0%N "dick";
                       code := Some "version_conflict" |} ]) ∧
    removeTerm' s 0%N 2%N "dick" = removeTerm s 0%N 2%N "dick" ∧
    (∀ t' f' d', posting (_index s') t' f' d' = posting (_index s) t' f' d') ∧
    (_index s !! "dick" ≠ Some ∅ → s' = s) ∧
    (_index s !! "dick" = Some ∅ →
     s' = with_index s (base.delete "dick" (_index s))).
Proof.
  intros s.
  assert (Hmiss : posting_missing (_index s) "dick" 0%N 2%N).
  { right. right. exists {[ 0%N := {[ 1%N := 1 ]} ]}, {[ 1%N := 1 ]}.
    repeat split; reflexivity. }
  split; [exact Hmiss|].
  exact (removeTerm_missing_posting s 0%N 2%N "dick" Hmiss).
Defined.

(** C3 with the invariant as the specification words it (every term has
    a posting with a positive frequency) fails when a term has an empty
    field entry next to its posting: the term outlives the only document
    that had it. *)
Lemma removeTerm_keeps_hollow_term :
  let s := sampleIndex (ID:=N) (Value:=unit) (Document:=unit) tt hollowField in
  has_posting (_index s) ∧ ¬ removes_document s 1%N [(0%N, "a")].
Proof.
  intros s. split.
  { apply (bool_decide_unpack _). vm_compute. exact I. }
  intros Hclaim. destruct Hclaim as (s' & logged & Hrun & Hgone & _).
  { intros f t. rewrite occurrences_cons.
    unfold occurrences, frequency, posting. simpl.
    destruct (decide ((0%N, "a") = (f, t))) as [[= <- <-]|Hne].
    - reflexivity.
    - unfold hollowField. destruct (decide (t = "a")) as [->|Ht].
      + rewrite lookup_singleton_eq.
        destruct (decide (f = 0%N)) as [->|Hf0]; [done|].
        rewrite lookup_insert_ne by done.
        destruct (decide (f = 1%N)) as [->|Hf1].
        * rewrite lookup_singleton_eq. reflexivity.
        * rewrite lookup_singleton_ne by done. reflexivity.
      + rewrite lookup_singleton_ne by done. reflexivity. }
  assert (Hstays : is_Some (_index s' !! "a")).
  { vm_compute in Hrun. injection Hrun as <- _. vm_compute. eexists. reflexivity. }
  rewrite (Hgone "a") in Hstays; [by destruct Hstays|].
  intros f d' Hd'. unfold posting. simpl. unfold hollowField.
  rewrite lookup_singleton_eq.
  destruct (decide (f = 0%N)) as [->|Hf0].
  - rewrite lookup_insert_eq. by rewrite lookup_singleton_ne.
  - rewrite lookup_insert_ne by done.
    destruct (decide (f = 1%N)) as [->|Hf1].
    + by rewrite lookup_singleton_eq.
    + by rewrite lookup_singleton_ne.
Qed.

Lemma removeTerm_removes_document_witness :
  let s := sampleIndex (ID:=N) (Value:=unit) (Document:=unit) tt twoDocuments in
  well_formed (_index s) ∧
  safe_frequencies (_index s) ∧
  (∀ d postings, removes_document s d postings) ∧
  (∀ f d t, removeTerm (addTerm s f d t) f d t = Return (s, [])).
Proof.
  intros s.
  assert (Hwf : well_formed (_index s)).
  { apply (bool_decide_unpack _). vm_compute. exact I. }
  assert (Hsafe : safe_frequencies (_index s)).
  { apply (bool_decide_unpack _). vm_compute. exact I. }
  split; [exact Hwf|]. split; [exact Hsafe|].
  exact (removeTerm_removes_document s Hwf Hsafe).
Defined.

(** Document [1] of the sample is removed posting by posting: "dick" goes,
    "moby" stays with the posting of document [2]. *)
Example removePostings_sample :
  removePostings
    (sampleIndex (ID:=N) (Value:=unit) (Document:=unit) tt twoDocuments)
    1%N [(0%N, "moby"); (0%N, "dick"); (0%N, "moby")] =
  Return (sampleIndex tt {[ "moby" := {[ 1%N := {[ 2%N := 1 ]} ]} ]}, []).
Proof. vm_compute. reflexivity. Qed.

(** The same document removed once too often: the last call warns. *)
Example removePostings_sample_warns :
  removePostings
    (sampleIndex (ID:=N) (Value:=unit) (Document:=unit) tt twoDocuments)
    1%N [(0%N, "dick"); (0%N, "dick")] =
  Return (sampleIndex tt
            {[ "moby" := {[ 0%N := {[ 1%N := 2 ]}; 1%N := {[ 2%N := 1 ]} ]} ]},
          [ {| level := LogWarn;
               message := DocumentChanged 1%N 0%N "dick";
               code := Some "version_conflict" |} ]).
Proof. vm_compute. reflexivity. Qed.

(** C9 as the specification words it fails once [2^53] documents were
    discarded: [1 + 2^53] is rounded to [2^53], and the getter returns
    one. *)
Lemma dirtFactor_reaches_one :
  let s := sampleCounters (ID:=N) (Value:=unit) (Document:=unit) tt
             0 (2 ^ 53) in
  (dirtFactor s == 1)%Q ∧ ¬ quotient_below_one s.
Proof.
  intros s. split; [by vm_compute|].
  intros Hclaim. destruct Hclaim as (_ & _ & Hlt); [by vm_compute..|].
  vm_compute in Hlt. discriminate Hlt.
Qed.

Lemma dirtFactor_range_witness :
  let s := sampleCounters (ID:=N) (Value:=unit) (Document:=unit) tt 3 1 in
  let exact := (inject_Z 1 / inject_Z (1 + 3 + 1))%Q in
  0 ≤ _documentCount s ∧ 0 ≤ _dirtCount s ∧
  1 + _documentCount s + _dirtCount s ≤ 2 ^ 53 ∧
  (dirtFactor s == roundDouble exact)%Q ∧
  (Qabs (dirtFactor s - exact) <= 1 # 2 ^ 54)%Q ∧
  1 ≤ 1 + _documentCount s + _dirtCount s ∧
  (0 <= dirtFactor s)%Q ∧ (dirtFactor s < 1)%Q.
Proof.
  intros s exact. split; [simpl; lia|]. split; [simpl; lia|].
  split; [simpl; lia|].
  apply (dirtFactor_range s); simpl; lia.
Defined.

(** Three documents and one discarded: a fifth of the index is dirt. The
    getter returns the double nearest to one fifth, which is a little
    more than that. *)
Example dirtFactor_sample :
  let factor :=
    dirtFactor (sampleCounters (ID:=N) (Value:=unit) (Document:=unit) tt 3 1) in
  (factor == 3602879701896397 # 2 ^ 54)%Q ∧ (1 # 5 < factor)%Q.
Proof. by vm_compute. Qed.

(** C8 as the specification words it fails on negative BM25+ parameters:
    the constructor returns an index. *)
Lemma constructor_accepts_negative_parameters :
  invalidOptions (ID:=N) (Value:=unit) (Document:=unit) (Logger:=unit)
    (Some negativeParameters) ∧
  ¬ rejected (ID:=N) (Value:=unit) (Document:=unit)
      (sampleOptions tt) emptySearchOptions emptySearchOptions
      sampleAutoVacuum sampleConditions (Some negativeParameters).
Proof.
  split.
  - right. exists negativeParameters. split; [reflexivity|].
    eexists _, _. split; [reflexivity|]. split; [reflexivity|].
    left. reflexivity.
  - intros (text & Hthrow & _). discriminate Hthrow.
Qed.

Lemma constructor_checks_fields_witness :
  rejected (ID:=N) (Value:=unit) (Document:=unit)
    (sampleOptions tt) emptySearchOptions emptySearchOptions
    sampleAutoVacuum sampleConditions None ∧
  ∃ s,
    constructor (ID:=N) (Value:=unit) (Document:=unit)
      (sampleOptions tt) emptySearchOptions emptySearchOptions
      sampleAutoVacuum sampleConditions (Some negativeParameters) = Return s ∧
    fields (_options s) = ["title"; "text"] ∧
    _index s = ∅ ∧ _documentCount s = 0 ∧ _dirtCount s = 0.
Proof.
  split.
  - apply (constructor_checks_fields (ID:=N) (Value:=unit) (Document:=unit)
             (sampleOptions tt) emptySearchOptions emptySearchOptions
             sampleAutoVacuum sampleConditions None).
    reflexivity.
  - apply (constructor_checks_fields (ID:=N) (Value:=unit) (Document:=unit)
             (sampleOptions tt) emptySearchOptions emptySearchOptions
             sampleAutoVacuum sampleConditions (Some negativeParameters)).
    reflexivity.
Defined.

(** C4 at a document that stores a field named [score]. Document [2],
    known as [20], stores the score 42; its entry of the combined results
    has the accumulated score 1 and one matched query term, so C4 has it
    reported with the score 1. [Object.assign] copies the stored field
    over the computed one: [search] reports 42 and ranks the document
    first. *)
Lemma search_reports_stored_score :
  let s := sampleDocuments (ID:=N) (Value:=unit) (Document:=unit) tt
             20%N 50%N {[ 2%N := storedScore 42 ]} in
  (λ r, (r_id r, r_score r)) <$>
    search (λ _ _ _, tiedResults) s QueryWildcard None =
    [(Some 20%N, 42%Q); (Some 50%N, 1%Q)] ∧
  ¬ reports_scaled_score (λ _ _ _, tiedResults) s QueryWildcard None.
Proof.
  intros s. split; [vm_compute; reflexivity|].
  intros Hclaim.
  destruct (Hclaim 2%N (resultOf s 2%N sampleEntry))
    as (entry & Hin & Hscore).
  { apply elem_of_hits. split; [reflexivity|].
    exists sampleEntry. split; [|reflexivity].
    simpl. unfold tiedResults. rewrite !elem_of_cons. auto. }
  simpl in Hin. unfold tiedResults in Hin.
  assert (entry = sampleEntry) as ->.
  { apply elem_of_cons in Hin as [Heq|Hin]; [discriminate Heq|].
    apply elem_of_cons in Hin as [Heq|Hin]; [by injection Heq|].
    by apply elem_of_nil in Hin. }
  vm_compute in Hscore. discriminate Hscore.
Qed.


(** C5 as the specification words it fails when the combined results
    list two documents of equal score with the larger short id first:
    [search] keeps them in that order. *)
Lemma search_keeps_combined_order :
  ¬ descending_then_by_id
      (hits (ID:=N) (Value:=unit) (Document:=unit)
         (λ _ _ _, tiedResults)
         (sampleDocuments tt 20%N 50%N ∅) QueryWildcard None).
Proof.
  intros Hclaim.
  destruct (Hclaim 0%nat 1%nat
    (5%N, resultOf (sampleDocuments (ID:=N) (Value:=unit) (Document:=unit) tt
                      20%N 50%N ∅) 5%N sampleEntry)
    (2%N, resultOf (sampleDocuments (ID:=N) (Value:=unit) (Document:=unit) tt
                      20%N 50%N ∅) 2%N sampleEntry))
    as [_ Hbefore]; [lia|vm_compute; reflexivity|vm_compute; reflexivity|].
  assert (Hlt : (5 < 2)%N) by (apply Hbefore; vm_compute; reflexivity).
  lia.
Qed.

(** No comparator of results can break ties by short id: a result does
    not hold its short id. Two indexes that give the two documents each
    other's external id yield the same two result objects in the same
    order, and whichever way the comparator orders them, one of the two
    searches has the larger short id first. *)
Lemma no_comparator_orders_ties_by_id
  (compare : SearchResult (ID:=N) (Value:=unit) →
             SearchResult (ID:=N) (Value:=unit) → Q) :
  ¬ (descending_then_by_id
       (hitsBy (Document:=unit) (λ _ _ _, tiedResults) compare
          (sampleDocuments tt 20%N 50%N ∅) QueryWildcard None) ∧
     descending_then_by_id
       (hitsBy (Document:=unit)
          (λ _ _ _, [(2%N, sampleEntry); (5%N, sampleEntry)]) compare
          (sampleDocuments tt 50%N 20%N ∅) QueryWildcard None)).
Proof.
  set (s1 := sampleDocuments (ID:=N) (Value:=unit) (Document:=unit) tt
               20%N 50%N ∅).
  set (s2 := sampleDocuments (ID:=N) (Value:=unit) (Document:=unit) tt
               50%N 20%N ∅).
  set (first := resultOf s1 5%N sampleEntry).
  set (second := resultOf s1 2%N sampleEntry).
  assert (H1 : hitsBy (λ _ _ _, tiedResults) compare s1 QueryWildcard None =
    if Qle_bool (compare first second) 0
    then [(5%N, first); (2%N, second)] else [(2%N, second); (5%N, first)])
    by reflexivity.
  assert (H2 : hitsBy
      (λ _ _ _, [(2%N, sampleEntry); (5%N, sampleEntry)]) compare s2
      QueryWildcard None =
    if Qle_bool (compare first second) 0
    then [(2%N, first); (5%N, second)] else [(5%N, second); (2%N, first)])
    by reflexivity.
  rewrite H1, H2. clear H1 H2. intros [Hs1 Hs2].
  destruct (Qle_bool (compare first second) 0).
  - destruct (Hs1 0%nat 1%nat (5%N, first) (2%N, second)) as [_ Hlt];
      [lia|done|done|].
    assert ((5 < 2)%N) by (apply Hlt; reflexivity). lia.
  - destruct (Hs2 0%nat 1%nat (5%N, second) (2%N, first)) as [_ Hlt];
      [lia|done|done|].
    assert ((5 < 2)%N) by (apply Hlt; reflexivity). lia.
Qed.

(** The results of that search: document [5] before document [2]. *)
Example search_sample :
  r_id <$> search (ID:=N) (Value:=unit) (Document:=unit)
             (λ _ _ _, tiedResults)
             (sampleDocuments tt 20%N 50%N ∅) QueryWildcard None =
  [Some 50%N; Some 20%N].
Proof. vm_compute. reflexivity. Qed.

(** An index whose default search options filter every result out: a
    search without options of its own still returns both results. *)
Lemma search_filters_by_call_options_witness :
  ∃ s,
    constructor (ID:=N) (Value:=unit) (Document:=unit)
      (sampleOptions tt) emptySearchOptions emptySearchOptions
      sampleAutoVacuum sampleConditions (Some rejectingDefaults) = Return s ∧
    (∀ r, passes (searchOptions (_options s)) r = false) ∧
    (None : option (SearchOptions (ID:=N) (Value:=unit))) ≫= opt_filter = None ∧
    length (search (λ _ _ _, tiedResults) s QueryWildcard None) = 2%nat.
Proof.
  eexists. split; [reflexivity|]. split; [intros r; reflexivity|].
  split; [reflexivity|].
  exact (proj2 (proj2 (proj2
    (search_filters_by_call_options (λ _ _ _, tiedResults) _ QueryWildcard None)
    eq_refl))).
Defined.

(** The serialised dictionary of the sample documents. *)
Example toJSON_sample :
  index (toJSON (sampleDocuments (ID:=N) (Value:=unit) (Document:=unit) tt
                   20%N 50%N ∅)) =
  [("zen", {[ "0" := {[ "2" := 1; "5" := 1 ]} ]})].
Proof. vm_compute. reflexivity. Qed.

Example toJSON_sample_ids :
  documentIds (toJSON (sampleDocuments (ID:=N) (Value:=unit) (Document:=unit)
                         tt 20%N 50%N ∅)) =
  {[ "2" := 20%N; "5" := 50%N ]}.
Proof. vm_compute. reflexivity. Qed.

Lemma loadJSON_toJSON_witness :
  let s := sampleDocuments (ID:=N) (Value:=unit) (Document:=unit) tt
             20%N 50%N {[ 2%N := storedScore 42 ]} in
  let load := loadJSON (sampleOptions tt) emptySearchOptions emptySearchOptions
                sampleAutoVacuum sampleConditions in
  (∃ fresh,
     constructor (sampleOptions tt) emptySearchOptions emptySearchOptions
       sampleAutoVacuum sampleConditions (Some sampleConstruction) =
       Return fresh ∧
     _options fresh = _options s) ∧
  (∀ s1 s2 q o, same_data s1 s2 →
     lookupQuery (ID:=N) (Value:=unit) (Document:=unit) (Logger:=unit) s1 q o =
     lookupQuery s2 q o) ∧
  ∃ s',
    load (toJSON s) (Some sampleConstruction) = Return s' ∧
    same_data s s' ∧
    (ids_consistent s → _idToShortId s' = _idToShortId s) ∧
    ∀ q o, search lookupQuery s' q o = search lookupQuery s q o.
Proof.
  intros s load.
  assert (Hfresh : ∃ fresh,
     constructor (sampleOptions tt) emptySearchOptions emptySearchOptions
       sampleAutoVacuum sampleConditions (Some sampleConstruction) =
       Return fresh ∧
     _options fresh = _options s).
  { eexists. split; reflexivity. }
  assert (Hreads : ∀ s1 s2 q o, same_data s1 s2 →
     lookupQuery (ID:=N) (Value:=unit) (Document:=unit) (Logger:=unit) s1 q o =
     lookupQuery s2 q o).
  { intros s1 s2 q o (_ & Hindex & _). unfold lookupQuery.
    by rewrite Hindex. }
  split; [exact Hfresh|]. split; [exact Hreads|].
  exact (loadJSON_toJSON (sampleOptions tt) emptySearchOptions
           emptySearchOptions sampleAutoVacuum sampleConditions lookupQuery
           s (Some sampleConstruction) Hfresh Hreads).
Defined.

(** The two id maps of the sample documents are inverse to each other. *)
Example sampleDocuments_ids_consistent :
  ids_consistent
    (sampleDocuments (ID:=N) (Value:=unit) (Document:=unit) tt 20%N 50%N ∅).
Proof.
  intros id shortId. simpl.
  rewrite !lookup_insert_Some, !lookup_singleton_Some.
  split; intros [[<- <-]|[Hne [<- <-]]]; auto.
Qed.

(** A search on the sample documents, before and after a round trip. *)
Example search_after_loadJSON :
  let s := sampleDocuments (ID:=N) (Value:=unit) (Document:=unit) tt
             20%N 50%N ∅ in
  ∃ s' : SearchIndex (ID:=N) (Value:=unit) (Document:=unit) (Logger:=unit),
    loadJSON (sampleOptions tt) emptySearchOptions emptySearchOptions
      sampleAutoVacuum sampleConditions (toJSON s) (Some sampleConstruction) =
      Return s' ∧
    r_id <$> search lookupQuery s' (QueryString "zen") None =
    r_id <$> search lookupQuery s (QueryString "zen") None ∧
    length (search lookupQuery s (QueryString "zen") None) = 2%nat.
Proof.
  intros s. eexists. split; [reflexivity|]. split; vm_compute; reflexivity.
Qed.

(** * The further properties at sample states *)

Lemma addTerm_counts_one_witness :
  let s := sampleIndex (ID:=N) (Value:=unit) (Document:=unit) tt twoDocuments in
  isSafeInteger (frequency (_index s) "moby" 0%N 1%N) ∧
  frequency (_index (addTerm s 0%N 1%N "moby")) "moby" 0%N 1%N =
    frequency (_index s) "moby" 0%N 1%N + 1.
Proof.
  intros s.
  assert (Hsafe : isSafeInteger (frequency (_index s) "moby" 0%N 1%N)).
  { apply (bool_decide_unpack _). vm_compute. exact I. }
  split; [exact Hsafe|].
  exact (proj1 (proj2 (addTerm_counts_one s 0%N 1%N "moby")) Hsafe).
Defined.

Lemma addTerm_removeTerm_witness :
  let s := sampleIndex (ID:=N) (Value:=unit) (Document:=unit) tt twoDocuments in
  well_formed (_index s) ∧
  is_Some (posting (_index s) "dick" 0%N 1%N) ∧
  isSafeInteger (frequency (_index s) "dick" 0%N 1%N) ∧
  ∃ s',
    removeTerm s 0%N 1%N "dick" = Return (s', []) ∧
    let s'' := addTerm s' 0%N 1%N "dick" in
    (∀ t' f' d',
       posting (_index s'') t' f' d' = posting (_index s) t' f' d') ∧
    (∀ t', is_Some (_index s'' !! t') ↔ is_Some (_index s !! t')) ∧
    s'' = with_index s (_index s'').
Proof.
  intros s.
  assert (Hwf : well_formed (_index s)).
  { apply (bool_decide_unpack _). vm_compute. exact I. }
  assert (Hp : is_Some (posting (_index s) "dick" 0%N 1%N)).
  { exists 1. reflexivity. }
  assert (Hsafe : isSafeInteger (frequency (_index s) "dick" 0%N 1%N)).
  { apply (bool_decide_unpack _). vm_compute. exact I. }
  split; [exact Hwf|]. split; [exact Hp|]. split; [exact Hsafe|].
  exact (addTerm_removeTerm s 0%N 1%N "dick" Hwf Hp Hsafe).
Defined.

Lemma term_operations_keep_shape_witness :
  let s := sampleIndex (ID:=N) (Value:=unit) (Document:=unit) tt twoDocuments in
  let ops := [RemoveTerm 0%N 1%N "dick"; RemoveTerm 0%N 1%N "dick";
              AddTerm 1%N 1%N "whale"] in
  well_formed (_index s) ∧
  ∃ dict' logged,
    applyOperations s ops = Return (with_index s dict', logged) ∧
    well_formed dict' ∧
    Forall isVersionConflict logged ∧
    (length logged ≤ removals ops)%nat.
Proof.
  intros s ops.
  assert (Hwf : well_formed (_index s)).
  { apply (bool_decide_unpack _). vm_compute. exact I. }
  split; [exact Hwf|]. exact (term_operations_keep_shape s ops Hwf).
Defined.

(** The run of that sequence: the second removal of "dick" warns. *)
Example applyOperations_sample :
  applyOperations
    (sampleIndex (ID:=N) (Value:=unit) (Document:=unit) tt twoDocuments)
    [RemoveTerm 0%N 1%N "dick"; RemoveTerm 0%N 1%N "dick";
     AddTerm 1%N 1%N "whale"] =
  Return
    (sampleIndex tt
       {[ "moby" := {[ 0%N := {[ 1%N := 2 ]}; 1%N := {[ 2%N := 1 ]} ]};
          "whale" := {[ 1%N := {[ 1%N := 1 ]} ]} ]},
     [ {| level := LogWarn;
          message := DocumentChanged 1%N 0%N "dick";
          code := Some "version_conflict" |} ]).
Proof. vm_compute. reflexivity. Qed.

Lemma removePostings_any_order_witness :
  let s := sampleIndex (ID:=N) (Value:=unit) (Document:=unit) tt twoDocuments in
  let l := [(0%N, "moby"); (0%N, "dick")] in
  let l' := [(0%N, "dick"); (0%N, "moby")] in
  well_formed (_index s) ∧
  (∀ f t, occurrences f t l ≤ frequency (_index s) t f 1%N) ∧
  l ≡ₚ l' ∧
  ∃ s', removePostings s 1%N l = Return (s', []) ∧
        removePostings s 1%N l' = Return (s', []).
Proof.
  intros s l l'.
  assert (Hwf : well_formed (_index s)).
  { apply (bool_decide_unpack _). vm_compute. exact I. }
  assert (Hocc : ∀ f t, occurrences f t l ≤ frequency (_index s) t f 1%N).
  { intros f t. unfold l. rewrite !occurrences_cons.
    pose proof (frequency_nonneg (_index s) t f 1%N Hwf) as Hnn.
    destruct (decide ((0%N, "moby") = (f, t))) as [[= <- <-]|Hmoby].
    - rewrite decide_False by discriminate.
      change (1 + (0 + occurrences 0%N "moby" []) ≤ 2). unfold occurrences.
      simpl. lia.
    - destruct (decide ((0%N, "dick") = (f, t))) as [[= <- <-]|Hdick].
      + change (0 + (1 + occurrences 0%N "dick" []) ≤ 1). unfold occurrences.
        simpl. lia.
      + change (occurrences f t []) with 0. lia. }
  assert (Hperm : l ≡ₚ l') by apply perm_swap.
  split; [exact Hwf|]. split; [exact Hocc|]. split; [exact Hperm|].
  exact (removePostings_any_order s 1%N l l' Hwf Hocc Hperm).
Defined.

Lemma constructor_numbers_fields_witness :
  let names := ["title"; "__proto__"; "text"] in
  (Some (fieldsAnd names None) : option (SearchIndexOptions
     (ID:=N) (Value:=unit) (Document:=unit) (Logger:=unit))) ≫= cfg_fields =
    Some names ∧
  ∃ s : SearchIndex (ID:=N) (Value:=unit) (Document:=unit) (Logger:=unit),
    constructor (sampleOptions tt) emptySearchOptions emptySearchOptions
      sampleAutoVacuum sampleConditions (Some (fieldsAnd names None)) =
      Return s ∧
    fields (_options s) = names ∧
    (∀ name, is_Some (_fieldIds s !! name) ↔
       name ∈ names ∧ name ≠ "__proto__") ∧
    (∀ name k, _fieldIds s !! name = Some k →
       names !! N.to_nat k = Some name) ∧
    (NoDup names →
     ∀ j name, names !! j = Some name → name ≠ "__proto__" →
       _fieldIds s !! name = Some (N.of_nat j)).
Proof.
  intros names. split; [reflexivity|].
  apply (constructor_numbers_fields (ID:=N) (Value:=unit) (Document:=unit)
           (sampleOptions tt) emptySearchOptions emptySearchOptions
           sampleAutoVacuum sampleConditions (Some (fieldsAnd names None))).
  reflexivity.
Defined.

(** A field named [__proto__] gets no id; the field after it keeps its
    position as its id. *)
Example constructor_skips_proto :
  match
    constructor (ID:=N) (Value:=unit) (Document:=unit)
      (sampleOptions tt) emptySearchOptions emptySearchOptions
      sampleAutoVacuum sampleConditions
      (Some (fieldsAnd ["title"; "__proto__"; "text"] None))
  with
  | Return s => _fieldIds s = {[ "title" := 0%N; "text" := 2%N ]}
  | Throw _ => False
  end.
Proof. vm_compute. reflexivity. Qed.

Lemma constructor_fills_defaults_witness :
  cfg_fields (sampleConstruction (ID:=N) (Value:=unit) (Document:=unit)
                (Logger:=unit)) = Some ["title"; "text"] ∧
  ∃ s : SearchIndex (ID:=N) (Value:=unit) (Document:=unit) (Logger:=unit),
    constructor (sampleOptions tt) (filterOnly hasId) emptySearchOptions
      sampleAutoVacuum sampleConditions (Some sampleConstruction) = Return s ∧
    (cfg_searchOptions (sampleConstruction (ID:=N) (Value:=unit)
                          (Document:=unit) (Logger:=unit)) = None →
     searchOptions (_options s) = filterOnly hasId) ∧
    (cfg_autoSuggestOptions (sampleConstruction (ID:=N) (Value:=unit)
                               (Document:=unit) (Logger:=unit)) = None →
     autoSuggestOptions (_options s) = emptySearchOptions) ∧
    autoVacuum (_options s) = None.
Proof.
  split; [reflexivity|].
  apply (constructor_fills_defaults (ID:=N) (Value:=unit) (Document:=unit)
           (sampleOptions tt) (filterOnly hasId) emptySearchOptions
           sampleAutoVacuum sampleConditions sampleConstruction
           ["title"; "text"]).
  reflexivity.
Defined.

Lemma dirtFactor_grows_with_dirt_witness :
  let s := sampleCounters (ID:=N) (Value:=unit) (Document:=unit) tt 3 1 in
  0 ≤ _documentCount s ∧ 0 ≤ _dirtCount s ∧
  1 + _documentCount s + _dirtCount s ≤ 2 ^ 53 ∧
  ((dirtFactor s == 0)%Q ↔ _dirtCount s = 0) ∧
  ∀ s' : SearchIndex (ID:=N) (Value:=unit) (Document:=unit) (Logger:=unit),
    0 ≤ _documentCount s' ≤ _documentCount s →
    _dirtCount s ≤ _dirtCount s' →
    1 + _documentCount s' + _dirtCount s' ≤ 2 ^ 53 →
    (dirtFactor s <= dirtFactor s')%Q.
Proof.
  intros s. split; [simpl; lia|]. split; [simpl; lia|]. split; [simpl; lia|].
  apply (dirtFactor_grows_with_dirt s); simpl; lia.
Defined.

(** One more document discarded: the factor rises from about a fifth to
    about two fifths. *)
Example dirtFactor_after_discard :
  (dirtFactor (sampleCounters (ID:=N) (Value:=unit) (Document:=unit) tt 3 1) <
   dirtFactor (sampleCounters (ID:=N) (Value:=unit) (Document:=unit) tt 2 2))%Q.
Proof. by vm_compute. Qed.

(** With two hundred million discarded documents one more does not
    change the factor: the two quotients are rounded to the same
    double. *)
Example dirtFactor_stays :
  (dirtFactor (sampleCounters (ID:=N) (Value:=unit) (Document:=unit) tt
                 0 200000000) ==
   dirtFactor (sampleCounters (ID:=N) (Value:=unit) (Document:=unit) tt
                 0 200000001))%Q.
Proof. by vm_compute. Qed.

Lemma toJSON_injective_witness :
  let s := sampleDocuments (ID:=N) (Value:=unit) (Document:=unit) tt
             20%N 50%N {[ 2%N := storedScore 42 ]} in
  toJSON s = toJSON (pendingVacuum s) ∧
  _index s = _index (pendingVacuum s) ∧
  _documentCount s = _documentCount (pendingVacuum s) ∧
  _nextId s = _nextId (pendingVacuum s) ∧
  _documentIds s = _documentIds (pendingVacuum s) ∧
  _fieldIds s = _fieldIds (pendingVacuum s) ∧
  _fieldLength s = _fieldLength (pendingVacuum s) ∧
  _avgFieldLength s = _avgFieldLength (pendingVacuum s) ∧
  _storedFields s = _storedFields (pendingVacuum s) ∧
  _dirtCount s = _dirtCount (pendingVacuum s).
Proof.
  intros s.
  assert (Heq : toJSON s = toJSON (pendingVacuum s)) by reflexivity.
  split; [exact Heq|]. exact (toJSON_injective s (pendingVacuum s) Heq).
Defined.

(** The filter at work: a document without an external id is left out. *)
Example search_filter_sample :
  r_id <$> search (ID:=N) (Value:=unit) (Document:=unit)
             (λ _ _ _, [(7%N, sampleEntry); (5%N, sampleEntry)])
             (sampleDocuments tt 20%N 50%N ∅) QueryWildcard
             (Some (filterOnly hasId)) =
  [Some 50%N].
Proof. vm_compute. reflexivity. Qed.

Lemma search_carries_stored_fields_witness :
  let s := sampleDocuments (ID:=N) (Value:=unit) (Document:=unit) tt
             20%N 50%N {[ 5%N := storedCategory tt ]} in
  let r := resultOf s 5%N sampleEntry in
  r ∈ search (λ _ _ _, tiedResults) s QueryWildcard None ∧
  ∃ docId entry,
    (docId, entry) ∈ tiedResults ∧
    match _storedFields s !! docId with
    | Some stored =>
        r_other r = stored_other stored ∧
        r_id r = spread (_documentIds s !! docId) (stored_id stored) ∧
        r_terms r = default (qr_match entry).*1 (stored_terms stored) ∧
        r_match r = default (qr_match entry) (stored_match stored)
    | None =>
        r_other r = ∅ ∧
        r_id r = _documentIds s !! docId ∧
        r_terms r = (qr_match entry).*1 ∧
        r_match r = qr_match entry
    end.
Proof.
  intros s r.
  assert (Hin : r ∈ search (λ _ _ _, tiedResults) s QueryWildcard None).
  { rewrite search_hits. apply list_elem_of_fmap. exists (5%N, r).
    split; [reflexivity|]. apply elem_of_hits. split; [reflexivity|].
    exists sampleEntry. split; [|reflexivity].
    simpl. unfold tiedResults. rewrite !elem_of_cons. auto. }
  split; [exact Hin|].
  exact (search_carries_stored_fields _ s QueryWildcard None r Hin).
Defined.

(** The stored field of that document in the result. *)
Example search_stored_sample :
  (λ r, (r_id r, r_other r)) <$>
    search (ID:=N) (Value:=unit) (Document:=unit)
      (λ _ _ _, [(5%N, sampleEntry)])
      (sampleDocuments tt 20%N 50%N {[ 5%N := storedCategory tt ]})
      QueryWildcard None =
  [(Some 50%N, {[ "category" := tt ]})].
Proof. vm_compute. reflexivity. Qed.

Lemma constructor_starts_empty_witness :
  ∃ s : SearchIndex (ID:=N) (Value:=unit) (Document:=unit) (Logger:=unit),
    constructor (sampleOptions tt) emptySearchOptions emptySearchOptions
      sampleAutoVacuum sampleConditions (Some negativeParameters) = Return s ∧
    termCount s = 0%nat ∧
    _documentCount s = 0 ∧
    _dirtCount s = 0 ∧
    (dirtFactor s == 0)%Q ∧
    isVacuuming s = false ∧
    well_formed (_index s) ∧
    index (toJSON s) = [] ∧
    documentIds (toJSON s) = ∅ ∧
    storedFields (toJSON s) = ∅ ∧
    fieldLength (toJSON s) = ∅.
Proof.
  eexists. split; [reflexivity|].
  apply (constructor_starts_empty (sampleOptions tt) emptySearchOptions
           emptySearchOptions sampleAutoVacuum sampleConditions
           (Some negativeParameters)).
  reflexivity.
Defined.

Lemma toJSON_addTerm_witness :
  let s := sampleIndex (ID:=N) (Value:=unit) (Document:=unit) tt twoDocuments in
  isSafeInteger (frequency (_index s) "moby" 0%N 1%N) ∧
  ∃ data,
    (("moby", data) ∈ index (toJSON (addTerm s 0%N 1%N "moby"))) ∧
    serializedFrequency data 0%N 1%N =
      Some (frequency (_index s) "moby" 0%N 1%N + 1).
Proof.
  intros s.
  assert (Hsafe : isSafeInteger (frequency (_index s) "moby" 0%N 1%N)).
  { apply (bool_decide_unpack _). vm_compute. exact I. }
  split; [exact Hsafe|].
  exact (proj1 (toJSON_addTerm s 0%N 1%N "moby") Hsafe).
Defined.

(** The rounding on numbers whose doubles are known: a third, a tenth,
    and the first integers that are not doubles. *)
Example roundDouble_samples :
  (roundDouble (1 # 3) == 6004799503160661 # 2 ^ 54)%Q ∧
  (roundDouble (1 # 10) == 3602879701896397 # 2 ^ 55)%Q ∧
  (roundDouble (inject_Z (2 ^ 53 + 1)) == inject_Z (2 ^ 53))%Q ∧
  (roundDouble (inject_Z (2 ^ 53 + 3)) == inject_Z (2 ^ 53 + 4))%Q ∧
  (roundDouble (inject_Z (- (2 ^ 53) - 1)) == inject_Z (- 2 ^ 53))%Q.
Proof. by vm_compute. Qed.
